(** * Calendar-System: the event store, its conflict detector and its
      create / delete protocol.

    Source files embedded here: [event.h] (the [Event] record and
    [EventComparator]) and [calendar_service.cpp] (class [CalendarService]).

    Modelling choices.
    - [time_t] and [int] values are integers of [Z].  The core only compares
      instants, so no arithmetic on [time_t] is involved.  The only arithmetic
      on [int] is [next_event_id_++]; a signed overflow there has no defined
      behaviour in C++, and the embedding makes that explicit: an operation
      returns [None] exactly when it would increment [INT_MAX].
    - [std::set<Event, EventComparator>] is the list of its elements in
      iteration order.  An iterator is a position in that list, [end()] being
      the length of the list.
    - [std::lock_guard] makes each public operation one atomic step of the
      sequential model; the mutex itself appears in the model of two
      threads calling [createEvent], where a call is a sequence of steps. *)

From Stdlib Require Import ZArith List Bool Lia Ascii String.
From Stdlib Require Import Sorted Permutation.
Import ListNotations.
Local Open Scope Z_scope.

(** ** event.h *)

Record Event : Type := mkEvent {
  id : Z;
  title : string;
  start_utc : Z;
  end_utc : Z
}.

(** [EventComparator::operator()]: ascending [start_utc], then [id]. *)
Definition EventComparator (a b : Event) : bool :=
  if negb (start_utc a =? start_utc b)
  then start_utc a <? start_utc b
  else id a <? id b.

(** ** The operations of [std::set] used by the service *)

(** [lower_bound(x)]: position of the first element that is not ordered
    before [x]; the length of the list when there is none. *)
Fixpoint lower_bound (x : Event) (l : list Event) : nat :=
  match l with
  | [] => O
  | y :: l' => if EventComparator y x then S (lower_bound x l') else O
  end.

(** [insert(x)]: [x] goes to its place in the order; when an element
    equivalent to [x] (neither ordered before the other) is present the set
    is left as it is. *)
Fixpoint set_insert (x : Event) (l : list Event) : list Event :=
  match l with
  | [] => [x]
  | y :: l' =>
      if EventComparator x y then x :: y :: l'
      else if EventComparator y x then y :: set_insert x l'
      else y :: l'
  end.

(** [erase(it)] for a position [it]. *)
Fixpoint set_erase (it : nat) (l : list Event) : list Event :=
  match l, it with
  | [], _ => []
  | _ :: l', O => l'
  | y :: l', S it' => y :: set_erase it' l'
  end.

(** ** calendar_service.cpp *)

Definition INT_MAX : Z := 2147483647.

Record CalendarService : Type := mkService {
  events_ : list Event;
  next_event_id_ : Z
}.

(** The constructor: an empty set and the counter at 1. *)
Definition init : CalendarService :=
  {| events_ := []; next_event_id_ := 1 |}.

(** [return next_event_id_++;] *)
Definition getNextEventId (st : CalendarService)
  : option (Z * CalendarService) :=
  if next_event_id_ st + 1 <=? INT_MAX
  then Some (next_event_id_ st,
             {| events_ := events_ st;
                next_event_id_ := next_event_id_ st + 1 |})
  else None.

(** The test written twice in [hasConflict]:
    [start_utc < it->end_utc && end_utc > it->start_utc]. *)
Definition overlaps (s e : Z) (ev : Event) : bool :=
  (s <? end_utc ev) && (e >? start_utc ev).

Definition hasConflict (evs : list Event) (s e : Z) : bool :=
  let search_event := mkEvent 0 EmptyString s e in
  let it := lower_bound search_event evs in
  if match nth_error evs it with
     | Some ev => overlaps s e ev
     | None => false
     end
  then true
  else if negb (Nat.eqb it O)
  then match nth_error evs (it - 1) with
       | Some ev => overlaps s e ev
       | None => false
       end
  else false.

(** The position of the first event with the given identifier, [end()]
    when there is none. *)
Fixpoint findEventById (event_id : Z) (l : list Event) : nat :=
  match l with
  | [] => O
  | y :: l' => if id y =? event_id then O else S (findEventById event_id l')
  end.

Definition createEvent (ttl : string) (s e : Z) (st : CalendarService)
  : option (Z * CalendarService) :=
  if s >=? e then Some (-1, st)
  else if hasConflict (events_ st) s e then Some (-1, st)
  else
    match getNextEventId st with
    | None => None
    | Some (event_id, st1) =>
        Some (event_id,
              {| events_ := set_insert (mkEvent event_id ttl s e) (events_ st1);
                 next_event_id_ := next_event_id_ st1 |})
    end.

Definition deleteEvent (event_id : Z) (st : CalendarService)
  : bool * CalendarService :=
  let it := findEventById event_id (events_ st) in
  if negb (Nat.eqb it (List.length (events_ st)))
  then (true, {| events_ := set_erase it (events_ st);
                 next_event_id_ := next_event_id_ st |})
  else (false, st).

(** The [while] loop of [getWeeklyEvents], run on the elements from the
    iterator on. *)
Fixpoint collect_until (week_end : Z) (l : list Event) : list Event :=
  match l with
  | [] => []
  | ev :: l' =>
      if start_utc ev <? week_end then ev :: collect_until week_end l' else []
  end.

Definition getWeeklyEvents (week_start week_end : Z) (st : CalendarService)
  : list Event :=
  let search_start := mkEvent 0 EmptyString week_start week_start in
  let it := lower_bound search_start (events_ st) in
  let result :=
    if negb (Nat.eqb it O)
    then match nth_error (events_ st) (it - 1) with
         | Some ev => if end_utc ev >? week_start then [ev] else []
         | None => []
         end
    else [] in
  result ++ collect_until week_end (skipn it (events_ st)).

(** The range-for loop of [getAllEvents]: one [push_back] per element. *)
Definition getAllEvents (st : CalendarService) : list Event :=
  fold_left (fun result event => result ++ [event]) (events_ st) [].

(** ** Runs of the service *)

(** The four operations the callers use, each one under the mutex from its
    first access to the service to its return. *)
Inductive op : Type :=
| Create (ttl : string) (s e : Z)
| Delete (event_id : Z)
| Weekly (week_start week_end : Z)
| AllEvents.

Inductive res : Type :=
| Created (r : Z)
| Deleted (b : bool)
| Listed (l : list Event).

Definition step (o : op) (st : CalendarService)
  : option (res * CalendarService) :=
  match o with
  | Create ttl s e =>
      match createEvent ttl s e st with
      | Some (r, st') => Some (Created r, st')
      | None => None
      end
  | Delete event_id =>
      let '(b, st') := deleteEvent event_id st in Some (Deleted b, st')
  | Weekly ws we => Some (Listed (getWeeklyEvents ws we st), st)
  | AllEvents => Some (Listed (getAllEvents st), st)
  end.

Fixpoint run (ops : list op) (st : CalendarService)
  : option (list res * CalendarService) :=
  match ops with
  | [] => Some ([], st)
  | o :: ops' =>
      match step o st with
      | None => None
      | Some (r, st1) =>
          match run ops' st1 with
          | None => None
          | Some (rs, st2) => Some (r :: rs, st2)
          end
      end
  end.

(** The identifiers handed out by the successful [createEvent] calls of a
    run, in call order; [-1] is the failure value. *)
Fixpoint issued (rs : list res) : list Z :=
  match rs with
  | [] => []
  | Created r :: rs' => if r =? -1 then issued rs' else r :: issued rs'
  | _ :: rs' => issued rs'
  end.

(** ** The invariants of the store *)

(** What [std::set] maintains by itself: the elements are in strictly
    ascending [EventComparator] order. *)
Definition set_wf (l : list Event) : Prop :=
  StronglySorted (fun a b => EventComparator a b = true) l.

Definition valid_intervals (l : list Event) : Prop :=
  Forall (fun ev => start_utc ev < end_utc ev) l.

Definition non_overlapping (l : list Event) : Prop :=
  forall A B, In A l -> In B l -> A <> B ->
    ~ (start_utc A < end_utc B /\ start_utc B < end_utc A).

Definition store_inv (l : list Event) : Prop :=
  set_wf l /\ valid_intervals l /\ non_overlapping l.

(** What holds of the whole service between two operations: the store
    invariants, and every stored identifier was issued by the counter. *)
Definition service_inv (st : CalendarService) : Prop :=
  store_inv (events_ st) /\
  1 <= next_event_id_ st <= INT_MAX /\
  Forall (fun ev => 1 <= id ev < next_event_id_ st) (events_ st).

Definition reachable (st : CalendarService) : Prop :=
  exists ops rs, run ops init = Some (rs, st).

(** The order of the store spelled out: ascending (start, id). *)
Definition key_lt (a b : Event) : Prop :=
  start_utc a < start_utc b \/ (start_utc a = start_utc b /\ id a < id b).

(** The [k] consecutive integers from [n] on. *)
Fixpoint ids_from (n : Z) (k : nat) : list Z :=
  match k with
  | O => []
  | S k' => n :: ids_from (n + 1) k'
  end.

(** ** Erasing titles *)

(** What is left of an event without its title. *)
Definition untitled (ev : Event) : Z * Z * Z :=
  (id ev, start_utc ev, end_utc ev).

Definition strip (ev : Event) : Event :=
  mkEvent (id ev) EmptyString (start_utc ev) (end_utc ev).

Definition strip_service (st : CalendarService) : CalendarService :=
  {| events_ := map strip (events_ st);
     next_event_id_ := next_event_id_ st |}.

(** Two operations with the same [strip_op] differ at most in the title
    passed to [createEvent]. *)
Definition strip_op (o : op) : op :=
  match o with
  | Create _ s e => Create EmptyString s e
  | _ => o
  end.

(** What a caller sees of a result apart from titles: the success or failure
    and the identifier of a creation, the answer of a deletion, the
    (id, start, end) triples of a listing. *)
Inductive obs : Type :=
| ObsCreated (r : Z)
| ObsDeleted (b : bool)
| ObsListed (l : list (Z * Z * Z)).

Definition observe (r : res) : obs :=
  match r with
  | Created z => ObsCreated z
  | Deleted b => ObsDeleted b
  | Listed l => ObsListed (map untitled l)
  end.

(** ** Two threads calling [createEvent]

    [createEvent] as the steps one thread takes.  [calendar_mutex_] is held
    from the construction of the [std::lock_guard] to the [return] that
    destroys it; the validation of the interval comes before.  All accesses
    to [events_] and [next_event_id_] are made with the mutex held, so an
    execution of two calls is an interleaving of these steps. *)

Record call : Type := mkCall { c_title : string; c_start : Z; c_end : Z }.

Record shared : Type := mkShared {
  service : CalendarService;
  calendar_mutex_ : bool          (* true: locked *)
}.

(** Where a thread is in the body of [createEvent]. *)
Inductive pc : Type :=
| AtEntry                         (* if (start_utc >= end_utc) return -1; *)
| AtLock                          (* std::lock_guard lock(calendar_mutex_); *)
| AtCheck                         (* if (hasConflict(...)) return -1; *)
| AtAlloc                         (* int event_id = getNextEventId(); *)
| AtInsert (event_id : Z)         (* events_.insert(new_event); *)
| AtUnlock (r : Z)                (* return r; the guard unlocks *)
| Returned (r : Z).

(** One step of a thread; [None] when the thread cannot move: it has
    returned, it waits for the mutex, or the increment of the counter is
    undefined. *)
Definition thread_step (a : call) (p : pc) (sh : shared)
  : option (pc * shared) :=
  match p with
  | AtEntry =>
      if c_start a >=? c_end a then Some (Returned (-1), sh)
      else Some (AtLock, sh)
  | AtLock =>
      if calendar_mutex_ sh then None
      else Some (AtCheck, {| service := service sh; calendar_mutex_ := true |})
  | AtCheck =>
      if hasConflict (events_ (service sh)) (c_start a) (c_end a)
      then Some (AtUnlock (-1), sh)
      else Some (AtAlloc, sh)
  | AtAlloc =>
      match getNextEventId (service sh) with
      | Some (event_id, st1) =>
          Some (AtInsert event_id,
                {| service := st1; calendar_mutex_ := calendar_mutex_ sh |})
      | None => None
      end
  | AtInsert event_id =>
      Some (AtUnlock event_id,
            {| service :=
                 {| events_ :=
                      set_insert
                        (mkEvent event_id (c_title a) (c_start a) (c_end a))
                        (events_ (service sh));
                    next_event_id_ := next_event_id_ (service sh) |};
               calendar_mutex_ := calendar_mutex_ sh |})
  | AtUnlock r =>
      Some (Returned r, {| service := service sh; calendar_mutex_ := false |})
  | Returned _ => None
  end.

Definition config : Type := pc * pc * shared.

(** Both calls at their entry, the mutex free. *)
Definition start_config (st : CalendarService) : config :=
  (AtEntry, AtEntry, {| service := st; calendar_mutex_ := false |}).

(** An execution under a schedule: [true] lets the first thread take a
    step, [false] the second; [None] when the scheduled thread cannot
    move. *)
Fixpoint sys_run (a1 a2 : call) (sched : list bool) (c : config)
  : option config :=
  match sched with
  | [] => Some c
  | t :: sched' =>
      let '(p1, p2, sh) := c in
      if t
      then match thread_step a1 p1 sh with
           | Some (p1', sh') => sys_run a1 a2 sched' (p1', p2, sh')
           | None => None
           end
      else match thread_step a2 p2 sh with
           | Some (p2', sh') => sys_run a1 a2 sched' (p1, p2', sh')
           | None => None
           end
  end.

(** How far a thread is from returning. *)
Definition steps_left (p : pc) : nat :=
  match p with
  | AtEntry => 6 | AtLock => 5 | AtCheck => 4 | AtAlloc => 3
  | AtInsert _ => 2 | AtUnlock _ => 1 | Returned _ => 0
  end.

Definition critical (p : pc) : bool :=
  match p with
  | AtCheck | AtAlloc | AtInsert _ | AtUnlock _ => true
  | _ => false
  end.

Definition waiting (p : pc) : bool :=
  match p with
  | AtEntry | AtLock => true
  | _ => false
  end.

(** What a thread at [p] has done so far to the service, from the state
    [pre] on which it runs to the current state [cur]. *)
Definition view (a : call) (p : pc) (pre cur : CalendarService) : Prop :=
  match p with
  | AtEntry => cur = pre
  | AtLock | AtCheck => (c_start a >=? c_end a) = false /\ cur = pre
  | AtAlloc =>
      (c_start a >=? c_end a) = false /\
      hasConflict (events_ pre) (c_start a) (c_end a) = false /\ cur = pre
  | AtInsert event_id =>
      (c_start a >=? c_end a) = false /\
      hasConflict (events_ pre) (c_start a) (c_end a) = false /\
      getNextEventId pre = Some (event_id, cur)
  | AtUnlock r | Returned r =>
      createEvent (c_title a) (c_start a) (c_end a) pre = Some (r, cur)
  end.

(** The mutex is held exactly while one thread is between its lock and its
    return, and two threads never are. *)
Definition lock_ok (pa pb : pc) (sh : shared) : Prop :=
  calendar_mutex_ sh = critical pa || critical pb /\
  critical pa && critical pb = false.

(** The thread of call [a] comes first: [b] runs on what [a] leaves. *)
Definition ordered (a b : call) (pa pb : pc) (st cur : CalendarService)
  : Prop :=
  exists mid,
    view a pa st mid /\ view b pb mid cur /\
    (waiting pb = true \/ critical pa = false).

Definition race_inv (a1 a2 : call) (st : CalendarService) (c : config)
  : Prop :=
  let '(p1, p2, sh) := c in
  lock_ok p1 p2 sh /\
  (ordered a1 a2 p1 p2 st (service sh) \/
   ordered a2 a1 p2 p1 st (service sh)).

(** ** Bookkeeping over the results of a run *)

(** The number of deletions of a run that removed an event. *)
Fixpoint removed (rs : list res) : nat :=
  match rs with
  | [] => O
  | Deleted true :: rs' => S (removed rs')
  | _ :: rs' => removed rs'
  end.

(** The interval of an event. *)
Definition span (ev : Event) : Z * Z := (start_utc ev, end_utc ev).

(** ** timezone.cpp

    What a call can end in: a value, the exception [std::invalid_argument],
    or an execution without defined behaviour (signed overflow of an [int],
    a read past the end of an array). *)

Inductive result (A : Type) : Type :=
| Ret (a : A)
| Throw
| Undef.
Arguments Ret {A} a.
Arguments Throw {A}.
Arguments Undef {A}.

Definition bind {A B : Type} (c : result A) (f : A -> result B) : result B :=
  match c with
  | Ret a => f a
  | Throw => Throw
  | Undef => Undef
  end.

Notation "c >>= f" := (bind c f) (at level 50, left associativity).

Definition INT_MIN : Z := -2147483648.

(** The value of an [int] expression: defined when it is representable. *)
Definition in_int (v : Z) : result Z :=
  if (INT_MIN <=? v) && (v <=? INT_MAX) then Ret v else Undef.

Definition getOffsetSeconds (tz_str : string) : result Z :=
  if String.eqb tz_str "UTC" then Ret 0
  else if String.eqb tz_str "IST" then Ret 19800
  else if String.eqb tz_str "PST" then Ret (-28800)
  else Throw.

Definition isValidTimezone (tz_str : string) : bool :=
  String.eqb tz_str "UTC" || String.eqb tz_str "IST" || String.eqb tz_str "PST".

(** [struct tm]. *)
Record tm : Type := mkTm {
  tm_sec : Z;
  tm_min : Z;
  tm_hour : Z;
  tm_mday : Z;
  tm_mon : Z;
  tm_year : Z;
  tm_wday : Z;
  tm_yday : Z;
  tm_isdst : Z
}.

(** [struct tm tm_local = {0};] *)
Definition tm_zero : tm := mkTm 0 0 0 0 0 0 0 0 0.

(** Formatted extraction from a [std::istringstream] belongs to the
    standard library and is left abstract: a stream opened on a string, and
    the extraction of an [int] and of a [char], each giving the value and
    the rest of the stream, or failing. *)
Record Istream : Type := mkIstream {
  stream : Type;
  istringstream : string -> stream;
  get_int : stream -> option (Z * stream);
  get_char : stream -> option (Ascii.ascii * stream)
}.

(** [iss >> year >> dash1 >> month >> dash2 >> day] *)
Definition extract_date (io : Istream) (date_str : string)
  : option (Z * Ascii.ascii * Z * Ascii.ascii * Z) :=
  match get_int io (istringstream io date_str) with
  | None => None
  | Some (year, s1) =>
  match get_char io s1 with
  | None => None
  | Some (dash1, s2) =>
  match get_int io s2 with
  | None => None
  | Some (month, s3) =>
  match get_char io s3 with
  | None => None
  | Some (dash2, s4) =>
  match get_int io s4 with
  | None => None
  | Some (day, _) => Some (year, dash1, month, dash2, day)
  end end end end end.

(** [parseDate]: the flag returned and the value of [tm_out] afterwards. *)
Definition parseDate (io : Istream) (date_str : string) (tm_out : tm)
  : bool * tm :=
  if negb (Nat.eqb (String.length date_str) 10) then (false, tm_out)
  else
    match extract_date io date_str with
    | None => (false, tm_out)
    | Some (year, dash1, month, dash2, day) =>
        if negb (Ascii.eqb dash1 "-"%char) || negb (Ascii.eqb dash2 "-"%char)
        then (false, tm_out)
        else if (year <? 1970) || (month <? 1) || (month >? 12)
                || (day <? 1) || (day >? 31)
        then (false, tm_out)
        else (true,
              {| tm_sec := 0; tm_min := 0; tm_hour := 0;
                 tm_mday := day; tm_mon := month - 1; tm_year := year - 1900;
                 tm_wday := tm_wday tm_out; tm_yday := tm_yday tm_out;
                 tm_isdst := -1 |})
    end.

(** [iss >> hour >> colon >> minute] *)
Definition extract_time (io : Istream) (time_str : string)
  : option (Z * Ascii.ascii * Z) :=
  match get_int io (istringstream io time_str) with
  | None => None
  | Some (hour, s1) =>
  match get_char io s1 with
  | None => None
  | Some (colon, s2) =>
  match get_int io s2 with
  | None => None
  | Some (minute, _) => Some (hour, colon, minute)
  end end end.

Definition parseTime (io : Istream) (time_str : string) (tm_out : tm)
  : bool * tm :=
  if negb (Nat.eqb (String.length time_str) 5) then (false, tm_out)
  else
    match extract_time io time_str with
    | None => (false, tm_out)
    | Some (hour, colon, minute) =>
        if negb (Ascii.eqb colon ":"%char) then (false, tm_out)
        else if (hour <? 0) || (hour >? 23) || (minute <? 0) || (minute >? 59)
        then (false, tm_out)
        else (true,
              {| tm_sec := 0; tm_min := minute; tm_hour := hour;
                 tm_mday := tm_mday tm_out; tm_mon := tm_mon tm_out;
                 tm_year := tm_year tm_out;
                 tm_wday := tm_wday tm_out; tm_yday := tm_yday tm_out;
                 tm_isdst := tm_isdst tm_out |})
    end.

(** [(y % 4 == 0 && y % 100 != 0) || (y % 400 == 0)], with the remainder
    of C. *)
Definition is_leap (y : Z) : bool :=
  ((Z.rem y 4 =? 0) && negb (Z.rem y 100 =? 0)) || (Z.rem y 400 =? 0).

(** The first loop of [daysSinceEpoch], with [n] years left from [y] on. *)
Fixpoint year_loop (n : nat) (y days : Z) : result Z :=
  match n with
  | O => Ret days
  | S n' =>
      in_int (days + 365) >>= fun d1 =>
      (if is_leap y then in_int (d1 + 1) else Ret d1) >>= fun d2 =>
      year_loop n' (y + 1) d2
  end.

Definition days_in_month (year : Z) : list Z :=
  if is_leap year
  then [31; 29; 31; 30; 31; 30; 31; 31; 30; 31; 30; 31]
  else [31; 28; 31; 30; 31; 30; 31; 31; 30; 31; 30; 31].

(** The second loop, with [n] months left from index [m] on; the array has
    twelve elements. *)
Fixpoint month_loop (n m : nat) (table : list Z) (days : Z) : result Z :=
  match n with
  | O => Ret days
  | S n' =>
      match nth_error table m with
      | None => Undef
      | Some dm =>
          in_int (days + dm) >>= fun d => month_loop n' (S m) table d
      end
  end.

Definition daysSinceEpoch (year month day : Z) : result Z :=
  year_loop (Z.to_nat (year - 1970)) 1970 0 >>= fun d1 =>
  in_int (month - 1) >>= fun last =>
  month_loop (Z.to_nat last) O (days_in_month year) d1 >>= fun d2 =>
  in_int (day - 1) >>= fun dd =>
  in_int (d2 + dd).

Definition localToUTC (io : Istream) (date_str time_str tz_str : string)
  : result Z :=
  if negb (isValidTimezone tz_str) then Ret (-1)
  else
    let '(ok_date, tm1) := parseDate io date_str tm_zero in
    if negb ok_date then Ret (-1)
    else
      let '(ok_time, tm_local) := parseTime io time_str tm1 in
      if negb ok_time then Ret (-1)
      else
        in_int (tm_year tm_local + 1900) >>= fun year =>
        in_int (tm_mon tm_local + 1) >>= fun month =>
        let day := tm_mday tm_local in
        let hour := tm_hour tm_local in
        let minute := tm_min tm_local in
        daysSinceEpoch year month day >>= fun days =>
        let utc_time := days * 24 * 3600 + hour * 3600 + minute * 60 in
        getOffsetSeconds tz_str >>= fun offset_seconds =>
        Ret (utc_time - offset_seconds).

(** ** main.cpp: [CLI::calculateWeekBounds]

    [gmtime] belongs to the C library and is left abstract: [gm t] is the
    [tm_wday] of the broken-down time, [None] for a null pointer.  The
    result is the pair ([week_start_utc], [week_end_utc]). *)
Definition calculateWeekBounds (io : Istream) (gm : Z -> option Z)
    (date_str tz_str : string) : result (Z * Z) :=
  localToUTC io date_str "00:00" tz_str >>= fun date_utc =>
  if date_utc =? -1 then Ret (-1, -1)
  else
    match gm date_utc with
    | None => Ret (-1, -1)
    | Some day_of_week =>
        (if day_of_week =? 0 then Ret 6 else in_int (day_of_week - 1))
        >>= fun days_to_monday =>
        let week_start_utc := date_utc - days_to_monday * 24 * 3600 in
        let week_end_utc := week_start_utc + 7 * 24 * 3600 in
        Ret (week_start_utc, week_end_utc)
    end.

(** ** The calendar, for stating what [daysSinceEpoch] computes *)

(** The number of leap years among the years 1 to [y - 1]. *)
Definition leaps_before (y : Z) : Z :=
  (y - 1) / 4 - (y - 1) / 100 + (y - 1) / 400.

(** The days of the year that precede the first day of a month. *)
Definition days_before_month (year month : Z) : Z :=
  nth (Z.to_nat (month - 1))
      [0; 31; 59; 90; 120; 151; 181; 212; 243; 273; 304; 334] 0
  + (if is_leap year && (2 <? month) then 1 else 0).

Definition day_number (year month day : Z) : Z :=
  365 * (year - 1970) + (leaps_before year - leaps_before 1970)
  + days_before_month year month + (day - 1).

Definition month_length (year month : Z) : Z :=
  nth (Z.to_nat (month - 1)) (days_in_month year) 0.

Definition sum_list (l : list Z) : Z := fold_right Z.add 0 l.

(** A date of the calendar: the day exists in its month. *)
Definition proper_date (year month day : Z) : Prop :=
  1970 <= year <= 5000000 /\ 1 <= month <= 12 /\
  1 <= day <= month_length year month.

(** Earlier in the calendar. *)
Definition date_lt (y1 m1 d1 y2 m2 d2 : Z) : Prop :=
  y1 < y2 \/ (y1 = y2 /\ (m1 < m2 \/ (m1 = m2 /\ d1 < d2))).

(** ** A stream for the examples

    Digits only: [get_int] reads the longest run of decimal digits at the
    front, which must not be empty, and [get_char] the next character.  (The
    extraction of the library also skips white space and reads a sign; the
    theorems below hold for every [Istream].) *)

Definition is_digit (c : Ascii.ascii) : bool :=
  (48 <=? nat_of_ascii c)%nat && (nat_of_ascii c <=? 57)%nat.

Fixpoint scan_digits (s : string) (acc : Z) (seen : bool)
  : option (Z * string) :=
  match s with
  | String c r =>
      if is_digit c
      then scan_digits r (acc * 10 + Z.of_nat (nat_of_ascii c - 48)) true
      else if seen then Some (acc, s) else None
  | EmptyString => if seen then Some (acc, s) else None
  end.

Definition digit_stream : Istream :=
  {| stream := string;
     istringstream := fun s => s;
     get_int := fun s => scan_digits s 0 false;
     get_char := fun s =>
       match s with
       | String c r => Some (c, r)
       | EmptyString => None
       end |}.

(** For the examples: the day of the week of the C library for an instant
    that is not negative, 1970-01-01 being a Thursday. *)
Definition weekday_of (t : Z) : option Z :=
  if t <? 0 then None else Some ((4 + t / 86400) mod 7).

(** ** main.cpp: [CLI::parseCommand]

    The tokens that [iss >> token] yields, one after the other, are the
    input: the splitting at white space is the library's.  The loop body
    works on [tokens], [in_quotes] and [quoted_token]. *)

(** The double quote character. *)
Definition dquote : Ascii.ascii := ascii_of_nat 34.

(** [s.back()], for a string that is not empty. *)
Fixpoint str_back (s : string) : option Ascii.ascii :=
  match s with
  | EmptyString => None
  | String c EmptyString => Some c
  | String _ r => str_back r
  end.

(** [s.substr(0, s.length() - 1)] *)
Fixpoint drop_last (s : string) : string :=
  match s with
  | EmptyString => EmptyString
  | String _ EmptyString => EmptyString
  | String c r => String c (drop_last r)
  end.

Definition ends_with_quote (s : string) : bool :=
  match str_back s with
  | Some c => Ascii.eqb c dquote
  | None => false
  end.

Definition parse_state : Type := list string * bool * string.

(** The body of the [while] loop; [token.front()] of an empty token has no
    defined behaviour. *)
Definition parse_step (st : parse_state) (token : string)
  : result parse_state :=
  let '(tokens, in_quotes, quoted_token) := st in
  match token with
  | EmptyString => Undef
  | String front rest =>
      if Ascii.eqb front dquote then
        let quoted_token := rest in
        if ends_with_quote token && (1 <? String.length token)%nat
        then Ret (tokens ++ [drop_last quoted_token], false,
                  drop_last quoted_token)
        else Ret (tokens, true, quoted_token)
      else if in_quotes then
        let quoted_token := (quoted_token ++ " " ++ token)%string in
        if ends_with_quote token
        then Ret (tokens ++ [drop_last quoted_token], false,
                  drop_last quoted_token)
        else Ret (tokens, true, quoted_token)
      else Ret (tokens ++ [token], in_quotes, quoted_token)
  end.

Fixpoint parse_loop (toks : list string) (st : parse_state)
  : result parse_state :=
  match toks with
  | [] => Ret st
  | token :: toks' => parse_step st token >>= parse_loop toks'
  end.

(** [parseCommand], on the tokens of the line. *)
Definition parseCommand (toks : list string) : result (list string) :=
  parse_loop toks ([], false, EmptyString) >>= fun st => Ret (fst (fst st)).

(** A token that neither opens nor closes a quotation. *)
Definition plain_token (t : string) : Prop :=
  exists c r, t = String c r /\ Ascii.eqb c dquote = false.

Definition inner_token (t : string) : Prop :=
  plain_token t /\ ends_with_quote t = false.

(** The words of a quotation, put together with single spaces. *)
Definition spaced (ws : list string) : string :=
  fold_right (fun w acc => (" " ++ w ++ acc)%string) EmptyString ws.

(** * Proofs *)

Example run_demo :
  run [Create "a" 10 20; Create "b" 20 30; Create "c" 15 25; Delete 1;
       Create "d" 5 12; AllEvents] init
  = Some ([Created 1; Created 2; Created (-1); Deleted true; Created 3;
           Listed [mkEvent 3 "d" 5 12; mkEvent 2 "b" 20 30]],
          {| events_ := [mkEvent 3 "d" 5 12; mkEvent 2 "b" 20 30];
             next_event_id_ := 4 |}).
Proof. reflexivity. Qed.

(** ** The order *)

Ltac order_facts :=
  unfold EventComparator, overlaps in *; simpl in *;
  repeat match goal with
  | H : context [?a =? ?b] |- _ => destruct (Z.eqb_spec a b); simpl in H
  | |- context [?a =? ?b] => destruct (Z.eqb_spec a b); simpl
  end;
  rewrite ?andb_true_iff, ?andb_false_iff in *;
  rewrite ?Z.ltb_lt, ?Z.ltb_ge, ?Z.gtb_ltb in *;
  rewrite ?Z.ltb_lt, ?Z.ltb_ge in *.

Lemma comparator_trans a b c :
  EventComparator a b = true -> EventComparator b c = true ->
  EventComparator a c = true.
Proof. intros; order_facts; lia. Qed.

Lemma comparator_irrefl a : EventComparator a a = false.
Proof. order_facts; lia. Qed.

Lemma comparator_start a b :
  EventComparator a b = true -> start_utc a <= start_utc b.
Proof. intros; order_facts; lia. Qed.

Lemma overlaps_spec s e ev :
  overlaps s e ev = true <-> s < end_utc ev /\ e > start_utc ev.
Proof. unfold overlaps. rewrite andb_true_iff, Z.ltb_lt, Z.gtb_ltb, Z.ltb_lt. lia. Qed.

(** ** [lower_bound] cuts a sorted list in two *)

Lemma set_wf_tail a l : set_wf (a :: l) -> set_wf l.
Proof. intros H; inversion H; assumption. Qed.

Lemma set_wf_head a l b :
  set_wf (a :: l) -> In b l -> EventComparator a b = true.
Proof.
  intros H Hb. inversion H as [|? ? _ Hall]; subst.
  rewrite Forall_forall in Hall. auto.
Qed.

Lemma set_wf_app_r l1 l2 : set_wf (l1 ++ l2) -> set_wf l2.
Proof.
  induction l1 as [|a l1 IH]; simpl; auto.
  intros H. apply IH. eapply set_wf_tail; eauto.
Qed.

Lemma lower_bound_cut x l :
  set_wf l ->
  exists before after,
    l = before ++ after /\
    lower_bound x l = List.length before /\
    Forall (fun y => EventComparator y x = true) before /\
    Forall (fun y => EventComparator y x = false) after.
Proof.
  induction l as [|a l IH]; intros Hwf.
  - exists [], []. repeat split; constructor.
  - simpl. destruct (EventComparator a x) eqn:Hax.
    + destruct (IH (set_wf_tail _ _ Hwf)) as (b & c & -> & Hlen & Hb & Hc).
      exists (a :: b), c. simpl. repeat split; auto.
    + exists [], (a :: l). repeat split; auto.
      constructor; auto.
      apply Forall_forall. intros y Hy.
      destruct (EventComparator y x) eqn:Hyx; auto.
      pose proof (set_wf_head _ _ _ Hwf Hy) as Hay.
      rewrite (comparator_trans _ _ _ Hay Hyx) in Hax. discriminate.
Qed.

(** With the iterator at [length before], [hasConflict] tests the first
    element of [after] and the last element of [before]. *)
Lemma hasConflict_at before after s e :
  lower_bound (mkEvent 0 EmptyString s e) (before ++ after)
    = List.length before ->
  hasConflict (before ++ after) s e =
    existsb (overlaps s e) (firstn 1 after)
    || existsb (overlaps s e) (firstn 1 (rev before)).
Proof.
  intros Hlb. unfold hasConflict. rewrite Hlb.
  rewrite nth_error_app2, Nat.sub_diag by lia.
  assert (Hpred :
    (if negb (Nat.eqb (List.length before) O)
     then match nth_error (before ++ after) (List.length before - 1) with
          | Some ev => overlaps s e ev
          | None => false
          end
     else false) = existsb (overlaps s e) (firstn 1 (rev before))).
  { destruct before as [|b0 before'] using rev_ind; [reflexivity|].
    rewrite rev_app_distr, length_app. simpl.
    replace (List.length before' + 1)%nat with (S (List.length before')) by lia.
    simpl. rewrite Nat.sub_0_r, <- app_assoc.
    rewrite nth_error_app2, Nat.sub_diag by lia. simpl.
    now rewrite orb_false_r. }
  rewrite Hpred.
  destruct after as [|h after']; simpl; [reflexivity|].
  rewrite orb_false_r. destruct (overlaps s e h); reflexivity.
Qed.

(** ** Stored events follow one another without overlap *)

Lemma store_chain l1 a l2 b :
  store_inv (l1 ++ a :: l2) -> In b l2 -> end_utc a <= start_utc b.
Proof.
  intros (Hwf & Hval & Hno) Hb.
  pose proof (set_wf_head _ _ _ (set_wf_app_r _ _ Hwf) Hb) as Hab.
  assert (Ha : In a (l1 ++ a :: l2)) by (apply in_or_app; right; left; auto).
  assert (Hb' : In b (l1 ++ a :: l2)) by (apply in_or_app; right; right; auto).
  assert (Hne : a <> b).
  { intros ->. rewrite comparator_irrefl in Hab. discriminate. }
  specialize (Hno a b Ha Hb' Hne).
  unfold valid_intervals in Hval. rewrite Forall_forall in Hval.
  pose proof (Hval b Hb'). pose proof (comparator_start _ _ Hab). lia.
Qed.

Lemma hasConflict_correct evs s e :
  store_inv evs ->
  hasConflict evs s e = true <->
  exists ev, In ev evs /\ overlaps s e ev = true.
Proof.
  intros Hinv.
  destruct (lower_bound_cut (mkEvent 0 EmptyString s e) evs (proj1 Hinv))
    as (before & after & -> & Hlb & Hbefore & Hafter).
  rewrite (hasConflict_at _ _ _ _ Hlb), orb_true_iff.
  pose proof Hinv as (Hwf & Hval & Hno).
  unfold valid_intervals in Hval. rewrite Forall_forall in Hval.
  rewrite Forall_forall in Hbefore, Hafter.
  split.
  - intros [H | H]; apply existsb_exists in H; destruct H as (ev & Hin & Hov);
      exists ev; split; auto; apply in_or_app.
    + right. destruct after; simpl in Hin; intuition (subst; auto with datatypes).
    + left. apply in_rev.
      destruct (rev before); simpl in Hin; intuition (subst; auto with datatypes).
  - intros (ev & Hin & Hov). apply overlaps_spec in Hov.
    apply in_app_or in Hin. destruct Hin as [Hin | Hin].
    + (* [ev] lies before the iterator *)
      right. destruct before as [|p before'] using rev_ind; [destruct Hin|].
      clear IHbefore'. rewrite rev_app_distr. simpl. rewrite orb_false_r.
      apply overlaps_spec.
      apply in_app_or in Hin. destruct Hin as [Hin | [-> | []]]; [|lia].
      exfalso.
      assert (Hp : EventComparator p (mkEvent 0 EmptyString s e) = true)
        by (apply Hbefore, in_or_app; right; left; auto).
      apply in_split in Hin. destruct Hin as (l1 & l2 & ->).
      assert (Hch : end_utc ev <= start_utc p).
      { apply (store_chain l1 ev (l2 ++ p :: after) p).
        - repeat rewrite <- app_assoc in Hinv. simpl in Hinv. exact Hinv.
        - apply in_or_app; right; left; auto. }
      pose proof (comparator_start _ _ Hp) as Hps. simpl in Hps. lia.
    + (* [ev] lies at or after the iterator *)
      left. destruct after as [|h after']; [destruct Hin|].
      simpl. rewrite orb_false_r. apply overlaps_spec.
      destruct Hin as [-> | Hin]; [lia|].
      assert (Hch : end_utc h <= start_utc ev)
        by (apply (store_chain before h after' ev); auto).
      assert (Hh : EventComparator h (mkEvent 0 EmptyString s e) = false)
        by (apply Hafter; left; auto).
      assert (Hhv : start_utc h < end_utc h)
        by (apply Hval, in_or_app; right; left; auto).
      assert (s <= start_utc h) by (clear - Hh; order_facts; lia).
      lia.
Qed.

(** ** Concrete stores *)

Ltac concrete_store_inv :=
  split; [ repeat constructor
         | split; [ repeat constructor; simpl; lia
                  | intros A B HA HB Hne [Hl Hr]; simpl in HA, HB;
                    intuition (subst; simpl in *; try congruence; try lia) ] ].

(** ** The conflict detector *)

(** C1.  On a store that satisfies the store invariants (sorted as the set
    keeps it, every interval with start < end, no two stored events
    overlapping) and for a candidate [s, e) with s < e:
    [hasConflict] answers true exactly when some stored event E has
    s < E.end and e > E.start; the two events it tests are the first one
    of the part of the store not ordered before the candidate, all of whose
    events start at s or later, and the last one of the part ordered before
    it, which (identifiers being non-negative) are the events that start
    before s; and a candidate that overlaps no stored event, touching
    included (E.end <= s or e <= E.start for every E), is no conflict. *)
Theorem hasConflict_neighbours_decide evs s e :
  store_inv evs -> s < e ->
  (hasConflict evs s e = true <->
     exists E, In E evs /\ s < end_utc E /\ e > start_utc E) /\
  (exists before after,
     evs = before ++ after /\
     Forall (fun E => s <= start_utc E) after /\
     Forall (fun E => start_utc E <= s) before /\
     (Forall (fun E => 0 <= id E) evs ->
        Forall (fun E => start_utc E < s) before) /\
     hasConflict evs s e =
       existsb (overlaps s e) (firstn 1 after)
       || existsb (overlaps s e) (firstn 1 (rev before))) /\
  ((forall E, In E evs -> end_utc E <= s \/ e <= start_utc E) ->
     hasConflict evs s e = false).
Proof.
  intros Hinv Hse.
  assert (Hiff : hasConflict evs s e = true <->
     exists E, In E evs /\ s < end_utc E /\ e > start_utc E).
  { rewrite (hasConflict_correct evs s e Hinv).
    split; intros (E & Hin & Hov); exists E; split; auto;
      apply overlaps_spec; auto. }
  split; [exact Hiff|split].
  - destruct (lower_bound_cut (mkEvent 0 EmptyString s e) evs (proj1 Hinv))
      as (before & after & Heq & Hlb & Hbefore & Hafter).
    exists before, after. subst evs.
    rewrite Forall_forall in Hbefore, Hafter.
    repeat split.
    + apply Forall_forall. intros E HE. specialize (Hafter E HE).
      clear - Hafter. order_facts; lia.
    + apply Forall_forall. intros E HE.
      apply (comparator_start _ _ (Hbefore E HE)).
    + intros Hid. rewrite Forall_forall in Hid.
      apply Forall_forall. intros E HE.
      pose proof (Hbefore E HE) as Hlt.
      assert (0 <= id E) by (apply Hid, in_or_app; left; auto).
      clear - Hlt H. order_facts; lia.
    + apply hasConflict_at; assumption.
  - intros Hnone. apply not_true_is_false. intros Hc.
    apply Hiff in Hc. destruct Hc as (E & Hin & Hov).
    destruct (Hnone E Hin); lia.
Qed.

Lemma hasConflict_neighbours_decide_witness :
  let evs := [mkEvent 1 "a" 10 20; mkEvent 2 "b" 20 30; mkEvent 3 "c" 40 50] in
  store_inv evs /\ 30 < 40 /\
  hasConflict evs 30 40 = false /\ hasConflict evs 25 40 = true.
Proof.
  intros evs.
  assert (Hinv : store_inv evs) by (subst evs; concrete_store_inv).
  split; [exact Hinv|]. split; [lia|]. split.
  - apply (hasConflict_neighbours_decide evs 30 40 Hinv); [lia|].
    subst evs; simpl; intros E HE; intuition (subst; simpl; lia).
  - apply (hasConflict_neighbours_decide evs 25 40 Hinv); [lia|].
    exists (mkEvent 2 "b" 20 30). subst evs; simpl. intuition lia.
Defined.

(** The invariant start < end of the stored events is used: an event that
    ends before it starts overlaps nothing by the formula of the store
    invariant, and hides an overlapping event from the two tests. *)
Remark hasConflict_needs_valid_intervals :
  let evs := [mkEvent 1 "f" 0 100; mkEvent 2 "p" 5 0] in
  set_wf evs /\ non_overlapping evs /\
  hasConflict evs 50 60 = false /\
  overlaps 50 60 (mkEvent 1 "f" 0 100) = true.
Proof.
  intros evs. split; [repeat constructor|]. split; [|split; reflexivity].
  intros A B HA HB Hne [Hl Hr]; simpl in HA, HB;
    intuition (subst; simpl in *; try congruence; try lia).
Qed.

(** ** [findEventById] and [erase] *)

Lemma findEventById_found event_id l :
  (exists E, In E l /\ id E = event_id) ->
  exists l1 E l2,
    l = l1 ++ E :: l2 /\ id E = event_id /\
    Forall (fun y => id y <> event_id) l1 /\
    findEventById event_id l = List.length l1.
Proof.
  induction l as [|a l IH]; intros (E & Hin & Hid).
  - destruct Hin.
  - simpl. destruct (Z.eqb_spec (id a) event_id) as [Heq | Hne].
    + exists [], a, l. repeat split; auto.
    + destruct Hin as [-> | Hin]; [contradiction|].
      destruct IH as (l1 & E' & l2 & -> & Hid' & Hall & Hlen);
        [exists E; auto|].
      exists (a :: l1), E', l2. simpl. repeat split; auto.
Qed.

Lemma findEventById_missing event_id l :
  (forall E, In E l -> id E <> event_id) ->
  findEventById event_id l = List.length l.
Proof.
  induction l as [|a l IH]; intros Hall; simpl; auto.
  destruct (Z.eqb_spec (id a) event_id) as [Heq | Hne].
  - exfalso. apply (Hall a); simpl; auto.
  - f_equal. apply IH. intros E HE. apply Hall. right; auto.
Qed.

Lemma set_erase_middle l1 a l2 :
  set_erase (List.length l1) (l1 ++ a :: l2) = l1 ++ l2.
Proof. induction l1 as [|b l1 IH]; simpl; congruence. Qed.

(** C6.  [deleteEvent(id)] on any store: when some stored event has the
    identifier, the call returns true and the store loses exactly one
    element, the first one carrying the identifier, every other element
    staying where it was, unmodified, and the counter is untouched; when no
    stored event has it, the call returns false and the whole state is
    unchanged. *)
Theorem deleteEvent_removes_exactly event_id st :
  ((exists E, In E (events_ st) /\ id E = event_id) ->
     exists l1 E l2,
       events_ st = l1 ++ E :: l2 /\ id E = event_id /\
       Forall (fun y => id y <> event_id) l1 /\
       deleteEvent event_id st =
         (true, {| events_ := l1 ++ l2;
                   next_event_id_ := next_event_id_ st |})) /\
  ((forall E, In E (events_ st) -> id E <> event_id) ->
     deleteEvent event_id st = (false, st)).
Proof.
  unfold deleteEvent. split.
  - intros Hex.
    destruct (findEventById_found _ _ Hex) as (l1 & E & l2 & Heq & Hid & Hall & Hpos).
    exists l1, E, l2. repeat split; auto.
    rewrite Hpos, Heq, set_erase_middle, length_app. simpl.
    destruct (Nat.eqb_spec (List.length l1) (List.length l1 + S (List.length l2)));
      [lia | reflexivity].
  - intros Hnone. rewrite (findEventById_missing _ _ Hnone).
    now rewrite Nat.eqb_refl.
Qed.

Lemma deleteEvent_removes_exactly_witness :
  let st := {| events_ := [mkEvent 1 "a" 10 20; mkEvent 2 "b" 20 30;
                           mkEvent 3 "c" 40 50];
               next_event_id_ := 4 |} in
  (exists E, In E (events_ st) /\ id E = 2) /\
  (exists l1 E l2,
     events_ st = l1 ++ E :: l2 /\ id E = 2 /\
     Forall (fun y => id y <> 2) l1 /\
     deleteEvent 2 st =
       (true, {| events_ := l1 ++ l2;
                 next_event_id_ := next_event_id_ st |})) /\
  (forall E, In E (events_ st) -> id E <> 7) /\
  deleteEvent 7 st = (false, st).
Proof.
  intros st.
  assert (H2 : exists E, In E (events_ st) /\ id E = 2)
    by (exists (mkEvent 2 "b" 20 30); simpl; auto).
  assert (H7 : forall E, In E (events_ st) -> id E <> 7)
    by (simpl; intros E [<-|[<-|[<-|[]]]]; simpl; lia).
  split; [exact H2|]. split.
  - exact (proj1 (deleteEvent_removes_exactly 2 st) H2).
  - split; [exact H7|].
    exact (proj2 (deleteEvent_removes_exactly 7 st) H7).
Defined.

Example deleteEvent_middle :
  deleteEvent 2 {| events_ := [mkEvent 1 "a" 10 20; mkEvent 2 "b" 20 30;
                               mkEvent 3 "c" 40 50];
                   next_event_id_ := 4 |}
  = (true, {| events_ := [mkEvent 1 "a" 10 20; mkEvent 3 "c" 40 50];
              next_event_id_ := 4 |}).
Proof. reflexivity. Qed.

(** ** The snapshot *)

Lemma comparator_key_lt a b : EventComparator a b = true <-> key_lt a b.
Proof. unfold key_lt. split; intros; order_facts; lia. Qed.

Lemma push_back_all (l acc : list Event) :
  fold_left (fun result event => result ++ [event]) l acc = acc ++ l.
Proof.
  revert acc. induction l as [|a l IH]; intros acc; simpl.
  - now rewrite app_nil_r.
  - rewrite IH, <- app_assoc. reflexivity.
Qed.

Lemma set_wf_NoDup l : set_wf l -> NoDup l.
Proof.
  induction l as [|a l IH]; intros Hwf; constructor.
  - intros Hin. pose proof (set_wf_head _ _ _ Hwf Hin) as H.
    rewrite comparator_irrefl in H. discriminate.
  - apply IH. eapply set_wf_tail; eauto.
Qed.

Lemma set_wf_key_sorted l : set_wf l -> StronglySorted key_lt l.
Proof.
  induction 1 as [|a l Hs IH Hall]; constructor; auto.
  eapply Forall_impl; [|exact Hall]. intros b. apply comparator_key_lt.
Qed.

(** C8.  [getAllEvents] returns the stored events as the set iterates over
    them: every stored event once, in ascending (start, id) order; the call
    leaves the state as it was, so two calls in a row return the same
    sequence. *)
Theorem getAllEvents_snapshot st :
  set_wf (events_ st) ->
  getAllEvents st = events_ st /\
  StronglySorted key_lt (getAllEvents st) /\
  NoDup (getAllEvents st) /\
  (forall E, In E (getAllEvents st) <-> In E (events_ st)) /\
  step AllEvents st = Some (Listed (getAllEvents st), st) /\
  run [AllEvents; AllEvents] st
    = Some ([Listed (getAllEvents st); Listed (getAllEvents st)], st).
Proof.
  intros Hwf.
  assert (Heq : getAllEvents st = events_ st)
    by (unfold getAllEvents; now rewrite push_back_all).
  rewrite Heq. repeat split; auto.
  - apply set_wf_key_sorted; assumption.
  - apply set_wf_NoDup; assumption.
  - simpl. now rewrite Heq.
  - simpl. now rewrite Heq.
Qed.

Lemma getAllEvents_snapshot_witness :
  let st := {| events_ := [mkEvent 3 "d" 5 12; mkEvent 2 "b" 20 30];
               next_event_id_ := 4 |} in
  set_wf (events_ st) /\
  getAllEvents st = events_ st /\
  run [AllEvents; AllEvents] st
    = Some ([Listed (getAllEvents st); Listed (getAllEvents st)], st).
Proof.
  intros st.
  assert (Hwf : set_wf (events_ st)) by (repeat constructor).
  split; [exact Hwf|]. split.
  - apply (getAllEvents_snapshot st Hwf).
  - apply (getAllEvents_snapshot st Hwf).
Defined.

(** ** [insert] *)

Lemma set_insert_In x l y : In y (set_insert x l) -> y = x \/ In y l.
Proof.
  induction l as [|a l IH]; simpl.
  - intuition.
  - destruct (EventComparator x a); [simpl; intuition|].
    destruct (EventComparator a x); simpl; intuition.
Qed.

Lemma set_insert_wf x l : set_wf l -> set_wf (set_insert x l).
Proof.
  induction l as [|a l IH]; intros Hwf; simpl.
  - repeat constructor.
  - destruct (EventComparator x a) eqn:Hxa.
    + constructor; auto. constructor; auto.
      apply Forall_forall. intros b Hb.
      eapply comparator_trans; [exact Hxa|].
      eapply set_wf_head; eauto.
    + destruct (EventComparator a x) eqn:Hax; auto.
      constructor; [apply IH; eapply set_wf_tail; eauto|].
      apply Forall_forall. intros b Hb.
      destruct (set_insert_In _ _ _ Hb) as [-> | Hb']; auto.
      eapply set_wf_head; eauto.
Qed.

(** Either the element goes in between two parts of the list, or an
    equivalent element is there and nothing changes. *)
Lemma set_insert_cases x l :
  (exists l1 l2, l = l1 ++ l2 /\ set_insert x l = l1 ++ x :: l2) \/
  (set_insert x l = l /\
   exists y, In y l /\ start_utc y = start_utc x /\ id y = id x).
Proof.
  induction l as [|a l IH]; simpl.
  - left. exists [], []. auto.
  - destruct (EventComparator x a) eqn:Hxa.
    + left. exists [], (a :: l). auto.
    + destruct (EventComparator a x) eqn:Hax.
      * destruct IH as [(l1 & l2 & -> & ->) | (-> & y & Hy & Hs & Hi)].
        -- left. exists (a :: l1), l2. auto.
        -- right. split; auto. exists y. auto.
      * right. split; auto. exists a. split; auto.
        clear - Hxa Hax. order_facts; lia.
Qed.

Lemma set_insert_fresh x l :
  (forall y, In y l -> id y <> id x) ->
  exists l1 l2, l = l1 ++ l2 /\ set_insert x l = l1 ++ x :: l2.
Proof.
  intros Hfresh.
  destruct (set_insert_cases x l) as [H | (_ & y & Hy & _ & Hid)]; auto.
  destruct (Hfresh y Hy Hid).
Qed.

(** ** The operations keep the invariants *)

Lemma store_inv_insert x l :
  store_inv l -> start_utc x < end_utc x ->
  (forall y, In y l -> overlaps (start_utc x) (end_utc x) y = false) ->
  store_inv (set_insert x l).
Proof.
  intros (Hwf & Hval & Hno) Hx Hfree. split; [|split].
  - apply set_insert_wf; assumption.
  - apply Forall_forall. intros y Hy.
    destruct (set_insert_In _ _ _ Hy) as [-> | Hy']; auto.
    unfold valid_intervals in Hval. rewrite Forall_forall in Hval. auto.
  - intros A B HA HB Hne [H1 H2].
    destruct (set_insert_In _ _ _ HA) as [-> | HA'];
      destruct (set_insert_In _ _ _ HB) as [-> | HB'].
    + congruence.
    + specialize (Hfree B HB'). order_facts; lia.
    + specialize (Hfree A HA'). order_facts; lia.
    + apply (Hno A B); auto.
Qed.

Lemma set_wf_remove l1 a l2 : set_wf (l1 ++ a :: l2) -> set_wf (l1 ++ l2).
Proof.
  induction l1 as [|b l1 IH]; simpl; intros Hwf.
  - eapply set_wf_tail; eauto.
  - constructor; [apply IH; eapply set_wf_tail; eauto|].
    apply Forall_forall. intros y Hy.
    apply (set_wf_head _ _ _ Hwf).
    apply in_app_or in Hy. apply in_or_app. simpl. tauto.
Qed.

Lemma store_inv_remove l1 a l2 :
  store_inv (l1 ++ a :: l2) -> store_inv (l1 ++ l2).
Proof.
  intros (Hwf & Hval & Hno).
  assert (Hsub : forall y, In y (l1 ++ l2) -> In y (l1 ++ a :: l2)).
  { intros y Hy. apply in_app_or in Hy. apply in_or_app. simpl. tauto. }
  split; [|split].
  - eapply set_wf_remove; eauto.
  - unfold valid_intervals in *. rewrite Forall_forall in *. auto.
  - intros A B HA HB. apply Hno; auto.
Qed.

Lemma init_inv : service_inv init.
Proof.
  unfold service_inv, store_inv, init. simpl. repeat split.
  - constructor.
  - constructor.
  - intros A B [].
  - lia.
  - unfold INT_MAX. lia.
  - constructor.
Qed.

Lemma createEvent_store_inv ttl s e st r st' :
  store_inv (events_ st) ->
  createEvent ttl s e st = Some (r, st') -> store_inv (events_ st').
Proof.
  intros Hinv. unfold createEvent, getNextEventId.
  destruct (Z.geb_spec s e) as [Hge | Hlt]; [intros [= _ <-]; auto|].
  destruct (hasConflict (events_ st) s e) eqn:Hc; [intros [= _ <-]; auto|].
  destruct (next_event_id_ st + 1 <=? INT_MAX); [|discriminate].
  intros [= _ <-]. simpl.
  apply store_inv_insert; auto. simpl.
  intros y Hy. apply not_true_is_false. intros Hov.
  assert (hasConflict (events_ st) s e = true)
    by (apply hasConflict_correct; eauto).
  congruence.
Qed.

Lemma deleteEvent_cases event_id st :
  deleteEvent event_id st = (false, st) \/
  exists l1 E l2,
    events_ st = l1 ++ E :: l2 /\
    deleteEvent event_id st =
      (true, {| events_ := l1 ++ l2; next_event_id_ := next_event_id_ st |}).
Proof.
  unfold deleteEvent.
  destruct (Nat.eqb_spec (findEventById event_id (events_ st))
                         (List.length (events_ st))) as [Heq | Hne]; simpl.
  - left. reflexivity.
  - right.
    assert (Hex : exists E, In E (events_ st) /\ id E = event_id).
    { clear - Hne. induction (events_ st) as [|a l IH]; simpl in *.
      - congruence.
      - destruct (Z.eqb_spec (id a) event_id); [eauto|].
        destruct IH as (E & HE & Hid); [congruence | eauto]. }
    destruct (findEventById_found _ _ Hex) as (l1 & E & l2 & Heq & _ & _ & Hpos).
    exists l1, E, l2. split; auto.
    rewrite Hpos, Heq, set_erase_middle. reflexivity.
Qed.

Lemma deleteEvent_store_inv event_id st b st' :
  store_inv (events_ st) ->
  deleteEvent event_id st = (b, st') -> store_inv (events_ st').
Proof.
  intros Hinv.
  destruct (deleteEvent_cases event_id st) as [-> | (l1 & E & l2 & Heq & ->)];
    intros [= _ <-]; auto.
  simpl. rewrite Heq in Hinv. eapply store_inv_remove; eauto.
Qed.

Lemma step_service_inv o st r st' :
  service_inv st -> step o st = Some (r, st') -> service_inv st'.
Proof.
  intros (Hstore & Hnext & Hids). destruct o as [ttl s e | event_id | ws we |];
    simpl.
  - destruct (createEvent ttl s e st) as [[r0 st0]|] eqn:Hcr; [|discriminate].
    intros [= _ <-].
    split; [eapply createEvent_store_inv; eauto|].
    revert Hcr. unfold createEvent, getNextEventId.
    destruct (s >=? e); [intros [= _ <-]; auto|].
    destruct (hasConflict (events_ st) s e); [intros [= _ <-]; auto|].
    destruct (Z.leb_spec (next_event_id_ st + 1) INT_MAX); [|discriminate].
    intros [= _ <-]. simpl. split; [lia|].
    rewrite Forall_forall in Hids. apply Forall_forall. intros y Hy.
    destruct (set_insert_In _ _ _ Hy) as [-> | Hy']; simpl; [lia|].
    specialize (Hids y Hy'). lia.
  - destruct (deleteEvent event_id st) as [b st0] eqn:Hdel.
    intros [= _ <-].
    split; [eapply deleteEvent_store_inv; eauto|].
    destruct (deleteEvent_cases event_id st) as [H | (l1 & E & l2 & Heq & H)];
      rewrite H in Hdel; injection Hdel as _ <-; auto.
    simpl. split; auto.
    rewrite Heq in Hids. rewrite Forall_forall in Hids.
    apply Forall_forall. intros y Hy. apply Hids.
    apply in_app_or in Hy. apply in_or_app. simpl. tauto.
  - intros [= _ <-]. split; [|split]; assumption.
  - intros [= _ <-]. split; [|split]; assumption.
Qed.

Lemma run_service_inv ops : forall st rs st',
  service_inv st -> run ops st = Some (rs, st') -> service_inv st'.
Proof.
  induction ops as [|o ops IH]; intros st rs st' Hinv; simpl.
  - intros [= _ <-]. assumption.
  - destruct (step o st) as [[r st1]|] eqn:Hstep; [|discriminate].
    destruct (run ops st1) as [[rs1 st2]|] eqn:Hrun; [|discriminate].
    intros [= _ <-]. eapply IH; [|exact Hrun].
    eapply step_service_inv; eauto.
Qed.

Lemma reachable_inv st : reachable st -> service_inv st.
Proof.
  intros (ops & rs & Hrun). eapply run_service_inv; [apply init_inv | eauto].
Qed.

(** C2.  In every state reached from the empty store by a sequence of
    operations, no two distinct stored events overlap and every stored
    event has start < end. *)
Theorem reachable_no_overlap st :
  reachable st ->
  (forall A B, In A (events_ st) -> In B (events_ st) -> A <> B ->
     ~ (start_utc A < end_utc B /\ start_utc B < end_utc A)) /\
  (forall A, In A (events_ st) -> start_utc A < end_utc A).
Proof.
  intros Hreach. destruct (reachable_inv st Hreach) as ((_ & Hval & Hno) & _).
  split; [exact Hno|].
  unfold valid_intervals in Hval. rewrite Forall_forall in Hval. exact Hval.
Qed.

Lemma reachable_no_overlap_witness :
  let st := {| events_ := [mkEvent 3 "d" 5 12; mkEvent 2 "b" 20 30];
               next_event_id_ := 4 |} in
  reachable st /\
  (forall A, In A (events_ st) -> start_utc A < end_utc A).
Proof.
  intros st.
  assert (Hreach : reachable st).
  { exists [Create "a" 10 20; Create "b" 20 30; Create "c" 15 25; Delete 1;
            Create "d" 5 12].
    exists [Created 1; Created 2; Created (-1); Deleted true; Created 3].
    reflexivity. }
  split; [exact Hreach|].
  apply (reachable_no_overlap st Hreach).
Defined.

Lemma step_store_inv o st r st' :
  store_inv (events_ st) -> step o st = Some (r, st') ->
  store_inv (events_ st').
Proof.
  intros Hinv. destruct o as [ttl s e | event_id | ws we |]; simpl.
  - destruct (createEvent ttl s e st) as [[r0 st0]|] eqn:Hcr; [|discriminate].
    intros [= _ <-]. eapply createEvent_store_inv; eauto.
  - destruct (deleteEvent event_id st) as [b st0] eqn:Hdel.
    intros [= _ <-]. eapply deleteEvent_store_inv; eauto.
  - intros [= _ <-]. assumption.
  - intros [= _ <-]. assumption.
Qed.

(** ** [createEvent] *)

Lemma hasConflict_overlap evs s e :
  store_inv evs ->
  hasConflict evs s e = true <->
  exists E, In E evs /\ s < end_utc E /\ e > start_utc E.
Proof.
  intros Hinv. rewrite (hasConflict_correct evs s e Hinv).
  split; intros (E & Hin & Hov); exists E; split; auto;
    apply overlaps_spec; auto.
Qed.

(** C5.  In a state that satisfies the service invariants, with
    "refused" standing for: start >= end, or some stored event E has
    start < E.end and end > E.start:
    a refused [createEvent] returns -1 and leaves the whole state as it
    was; one that is not refused, the counter being below [INT_MAX], returns
    the counter's value, advances the counter by one and puts the new event,
    carrying the returned identifier, into the otherwise unchanged sequence
    of stored events; and whatever the call returns, the result is -1
    exactly when the call is refused. *)
Theorem createEvent_outcome ttl s e st :
  service_inv st ->
  let refused :=
    s >= e \/ exists E, In E (events_ st) /\ s < end_utc E /\ e > start_utc E in
  (refused -> createEvent ttl s e st = Some (-1, st)) /\
  (~ refused -> next_event_id_ st < INT_MAX ->
     exists l1 l2,
       events_ st = l1 ++ l2 /\
       createEvent ttl s e st =
         Some (next_event_id_ st,
               {| events_ := l1 ++ mkEvent (next_event_id_ st) ttl s e :: l2;
                  next_event_id_ := next_event_id_ st + 1 |})) /\
  (forall r st', createEvent ttl s e st = Some (r, st') ->
     (r = -1 <-> refused)).
Proof.
  intros (Hstore & Hnext & Hids) refused.
  pose proof (hasConflict_overlap (events_ st) s e Hstore) as Hconf.
  unfold createEvent, getNextEventId.
  destruct (Z.geb_spec s e) as [Hge | Hlt].
  { repeat split; auto.
    - intros Hnot. exfalso. apply Hnot. left. lia.
    - intros _. left. lia.
    - now injection H as <- _. }
  destruct (hasConflict (events_ st) s e) eqn:Hc.
  { assert (Hov : refused) by (right; apply Hconf; reflexivity).
    repeat split; auto.
    - intros Hnot. contradiction.
    - now injection H as <- _. }
  assert (Hnot : ~ refused).
  { intros [Hge | Hov]; [lia|]. apply Hconf in Hov. discriminate. }
  repeat split.
  - intros Href. contradiction.
  - intros _ Hmax.
    destruct (Z.leb_spec (next_event_id_ st + 1) INT_MAX); [|lia].
    simpl.
    destruct (set_insert_fresh (mkEvent (next_event_id_ st) ttl s e) (events_ st))
      as (l1 & l2 & Heq & Hins).
    { rewrite Forall_forall in Hids. intros y Hy. specialize (Hids y Hy).
      simpl. lia. }
    exists l1, l2. split; auto. rewrite Hins. reflexivity.
  - intros ->. exfalso.
    destruct (next_event_id_ st + 1 <=? INT_MAX); [|discriminate].
    injection H as H _. lia.
  - intros Href. contradiction.
Qed.

Lemma createEvent_outcome_witness :
  let st := {| events_ := [mkEvent 1 "a" 10 20; mkEvent 2 "b" 20 30];
               next_event_id_ := 3 |} in
  service_inv st /\
  createEvent "late" 25 35 st = Some (-1, st) /\
  createEvent "empty" 40 40 st = Some (-1, st) /\
  exists l1 l2,
    events_ st = l1 ++ l2 /\
    createEvent "c" 30 40 st =
      Some (3, {| events_ := l1 ++ mkEvent 3 "c" 30 40 :: l2;
                  next_event_id_ := 4 |}).
Proof.
  intros st.
  assert (Hinv : service_inv st).
  { split; [subst st; simpl; concrete_store_inv|].
    split; [unfold INT_MAX; simpl; lia|].
    repeat constructor; simpl; lia. }
  split; [exact Hinv|]. split; [|split].
  - apply (createEvent_outcome "late" 25 35 st Hinv).
    right. exists (mkEvent 2 "b" 20 30). simpl. intuition lia.
  - apply (createEvent_outcome "empty" 40 40 st Hinv). left. lia.
  - apply (createEvent_outcome "c" 30 40 st Hinv).
    + intros [Hge | (E & HE & H1 & H2)]; [lia|].
      simpl in HE. destruct HE as [<- | [<- | []]]; simpl in *; lia.
    + unfold INT_MAX. simpl. lia.
Defined.

Example createEvent_boundary_touch :
  run [Create "a" 36000 39600; Create "b" 39600 43200] init
  = Some ([Created 1; Created 2],
          {| events_ := [mkEvent 1 "a" 36000 39600; mkEvent 2 "b" 39600 43200];
             next_event_id_ := 3 |}).
Proof. reflexivity. Qed.

Example createEvent_overlap_rejected :
  run [Create "a" 36000 39600; Create "b" 37800 41400] init
  = Some ([Created 1; Created (-1)],
          {| events_ := [mkEvent 1 "a" 36000 39600]; next_event_id_ := 2 |}).
Proof. reflexivity. Qed.

(** ** The identifier counter along a run *)

Lemma step_issued o st r st' :
  1 <= next_event_id_ st -> step o st = Some (r, st') ->
  (issued [r] = [] /\ next_event_id_ st' = next_event_id_ st) \/
  (issued [r] = [next_event_id_ st] /\
   next_event_id_ st' = next_event_id_ st + 1).
Proof.
  intros Hnext. destruct o as [ttl s e | event_id | ws we |]; simpl.
  - unfold createEvent, getNextEventId.
    destruct (s >=? e); [intros [= <- <-]; left; auto|].
    destruct (hasConflict (events_ st) s e); [intros [= <- <-]; left; auto|].
    destruct (next_event_id_ st + 1 <=? INT_MAX); [|discriminate].
    intros [= <- <-]. right. simpl.
    destruct (Z.eqb_spec (next_event_id_ st) (-1)); [lia | auto].
  - destruct (deleteEvent_cases event_id st) as [-> | (l1 & E & l2 & _ & ->)];
      intros [= <- <-]; left; auto.
  - intros [= <- <-]. left; auto.
  - intros [= <- <-]. left; auto.
Qed.

Lemma issued_cons r rs : issued (r :: rs) = issued [r] ++ issued rs.
Proof.
  destruct r as [z | b | l]; simpl; auto.
  destruct (z =? -1); reflexivity.
Qed.

Lemma run_issued ops : forall st rs st',
  1 <= next_event_id_ st -> run ops st = Some (rs, st') ->
  issued rs = ids_from (next_event_id_ st) (List.length (issued rs)) /\
  next_event_id_ st' =
    next_event_id_ st + Z.of_nat (List.length (issued rs)).
Proof.
  induction ops as [|o ops IH]; intros st rs st' Hnext; simpl.
  - intros [= <- <-]. simpl. split; [reflexivity | lia].
  - destruct (step o st) as [[r st1]|] eqn:Hstep; [|discriminate].
    destruct (run ops st1) as [[rs1 st2]|] eqn:Hrun; [|discriminate].
    intros [= <- <-]. rewrite issued_cons.
    destruct (step_issued _ _ _ _ Hnext Hstep) as [(Hi & Hn) | (Hi & Hn)];
      rewrite Hi; simpl;
      (destruct (IH st1 rs1 st2) as (Hids & Hlast); [lia | exact Hrun |]);
      rewrite Hn in Hids, Hlast.
    + split; [exact Hids | lia].
    + split; [f_equal; exact Hids | lia].
Qed.

Lemma run_defined ops : forall st,
  1 <= next_event_id_ st ->
  next_event_id_ st + Z.of_nat (List.length ops) <= INT_MAX ->
  exists rs st', run ops st = Some (rs, st').
Proof.
  induction ops as [|o ops IH]; intros st Hnext Hmax; simpl.
  - eauto.
  - assert (Hstep : exists r st1, step o st = Some (r, st1)).
    { destruct o as [ttl s e | event_id | ws we |]; simpl; eauto.
      - unfold createEvent, getNextEventId.
        destruct (s >=? e); eauto.
        destruct (hasConflict (events_ st) s e); eauto.
        destruct (Z.leb_spec (next_event_id_ st + 1) INT_MAX); eauto.
        simpl List.length in Hmax. lia.
      - destruct (deleteEvent event_id st); eauto. }
    destruct Hstep as (r & st1 & Hstep). rewrite Hstep.
    destruct (step_issued _ _ _ _ Hnext Hstep) as [(_ & Hn) | (_ & Hn)];
      (destruct (IH st1) as (rs & st2 & ->);
        [lia | simpl List.length in Hmax; lia | eauto]).
Qed.

Lemma ids_from_lower n k : Forall (fun i => n <= i) (ids_from n k).
Proof.
  revert n. induction k as [|k IH]; intros n; simpl; constructor; [lia|].
  eapply Forall_impl; [|apply (IH (n + 1))]. simpl. intros; lia.
Qed.

Lemma ids_from_increasing n k : StronglySorted Z.lt (ids_from n k).
Proof.
  revert n. induction k as [|k IH]; intros n; simpl; constructor; auto.
  eapply Forall_impl; [|apply (ids_from_lower (n + 1) k)]. simpl. intros; lia.
Qed.

Lemma increasing_NoDup (l : list Z) : StronglySorted Z.lt l -> NoDup l.
Proof.
  induction 1 as [|a l Hs IH Hall]; constructor; auto.
  intros Hin. rewrite Forall_forall in Hall. specialize (Hall a Hin). lia.
Qed.

(** C7.  Along any run from the initial state (a run of fewer than
    [INT_MAX] operations is always defined), the identifiers returned by the
    successful [createEvent] calls, in call order, are strictly increasing,
    so that none is returned twice, deletions or not; all are at least 1 and
    the first one issued is 1. *)
Theorem issued_ids_increase ops :
  (Z.of_nat (List.length ops) < INT_MAX ->
     exists rs st, run ops init = Some (rs, st)) /\
  (forall rs st, run ops init = Some (rs, st) ->
     StronglySorted Z.lt (issued rs) /\
     NoDup (issued rs) /\
     Forall (fun i => 1 <= i) (issued rs) /\
     (issued rs = [] \/ hd_error (issued rs) = Some 1)).
Proof.
  split.
  - intros Hlen. apply run_defined; unfold init; simpl next_event_id_; lia.
  - intros rs st Hrun.
    destruct (run_issued ops init rs st) as (Hids & _); [simpl; lia | auto |].
    simpl next_event_id_ in Hids. rewrite Hids.
    pose proof (ids_from_increasing 1 (List.length (issued rs))) as Hinc.
    repeat split; auto.
    + apply increasing_NoDup; assumption.
    + apply ids_from_lower.
    + destruct (List.length (issued rs)); simpl; auto.
Qed.

Lemma issued_ids_increase_witness :
  let ops := [Create "a" 10 20; Create "b" 20 30; Create "c" 15 25; Delete 1;
              Create "d" 5 12; Delete 2; Create "e" 20 30] in
  run ops init
    = Some ([Created 1; Created 2; Created (-1); Deleted true; Created 3;
             Deleted true; Created 4],
            {| events_ := [mkEvent 3 "d" 5 12; mkEvent 4 "e" 20 30];
               next_event_id_ := 5 |}) /\
  StronglySorted Z.lt [1; 2; 3; 4].
Proof.
  intros ops.
  assert (Hrun : run ops init
    = Some ([Created 1; Created 2; Created (-1); Deleted true; Created 3;
             Deleted true; Created 4],
            {| events_ := [mkEvent 3 "d" 5 12; mkEvent 4 "e" 20 30];
               next_event_id_ := 5 |})) by reflexivity.
  split; [exact Hrun|].
  exact (proj1 (proj2 (issued_ids_increase ops) _ _ Hrun)).
Defined.

(** C10.  A [createEvent] that fails (start >= end, or a conflict found)
    returns -1 and leaves the state, the counter included, as it was;
    and along any run from the initial state (a run of fewer than [INT_MAX]
    operations is always defined) the identifiers returned by the successful
    [createEvent] calls are, in call order, 1, 2, 3, ... without a gap, the
    counter ending one above the last of them. *)
Theorem issued_ids_consecutive ops :
  (forall ttl s e st r st',
     createEvent ttl s e st = Some (r, st') ->
     s >= e \/ hasConflict (events_ st) s e = true ->
     r = -1 /\ st' = st) /\
  (Z.of_nat (List.length ops) < INT_MAX ->
     exists rs st, run ops init = Some (rs, st)) /\
  (forall rs st, run ops init = Some (rs, st) ->
     issued rs = ids_from 1 (List.length (issued rs)) /\
     next_event_id_ st = 1 + Z.of_nat (List.length (issued rs))).
Proof.
  split; [|split].
  - intros ttl s e st r st'. unfold createEvent.
    destruct (Z.geb_spec s e) as [Hge | Hlt]; [intros [= <- <-]; auto|].
    destruct (hasConflict (events_ st) s e); [intros [= <- <-]; auto|].
    intros _ [Hge | Hc]; [lia | discriminate].
  - intros Hlen. apply run_defined; unfold init; simpl next_event_id_; lia.
  - intros rs st Hrun.
    apply (run_issued ops init rs st); [simpl; lia | exact Hrun].
Qed.

Lemma issued_ids_consecutive_witness :
  let ops := [Create "x" 3 3; Create "a" 10 20; Create "c" 15 25;
              Create "b" 20 30; Delete 1; Create "d" 10 20] in
  run ops init
    = Some ([Created (-1); Created 1; Created (-1); Created 2; Deleted true;
             Created 3],
            {| events_ := [mkEvent 3 "d" 10 20; mkEvent 2 "b" 20 30];
               next_event_id_ := 4 |}) /\
  [1; 2; 3] = ids_from 1 3.
Proof.
  intros ops.
  assert (Hrun : run ops init
    = Some ([Created (-1); Created 1; Created (-1); Created 2; Deleted true;
             Created 3],
            {| events_ := [mkEvent 3 "d" 10 20; mkEvent 2 "b" 20 30];
               next_event_id_ := 4 |})) by reflexivity.
  split; [exact Hrun|].
  exact (proj1 (proj2 (proj2 (issued_ids_consecutive ops)) _ _ Hrun)).
Defined.

(** ** The range query *)

Lemma filter_none (f : Event -> bool) l :
  (forall b, In b l -> f b = false) -> filter f l = [].
Proof.
  induction l as [|a l IH]; intros Hall; simpl; auto.
  rewrite (Hall a) by (left; auto). apply IH. intros b Hb. apply Hall. right; auto.
Qed.

Lemma collect_until_filter week_end l :
  set_wf l ->
  collect_until week_end l = filter (fun E => start_utc E <? week_end) l.
Proof.
  induction l as [|a l IH]; intros Hwf; simpl; auto.
  destruct (Z.ltb_spec (start_utc a) week_end) as [Hlt | Hge].
  - f_equal. apply IH. eapply set_wf_tail; eauto.
  - symmetry. apply filter_none. intros b Hb.
    pose proof (comparator_start _ _ (set_wf_head _ _ _ Hwf Hb)).
    apply Z.ltb_ge. lia.
Qed.

Lemma strict_filter (R : Event -> Event -> Prop) f l :
  StronglySorted R l -> StronglySorted R (filter f l).
Proof.
  induction 1 as [|a l Hs IH Hall]; simpl; [constructor|].
  destruct (f a); auto. constructor; auto.
  rewrite Forall_forall in *. intros b Hb.
  apply Hall. apply filter_In in Hb. tauto.
Qed.

Lemma store_inv_start_sorted l :
  store_inv l -> StronglySorted (fun a b => start_utc a < start_utc b) l.
Proof.
  induction l as [|a l IH]; intros Hinv; constructor.
  - apply IH. apply (store_inv_remove [] a l Hinv).
  - apply Forall_forall. intros b Hb.
    pose proof (store_chain [] a l b Hinv Hb).
    destruct Hinv as (_ & Hval & _). inversion Hval; subst. lia.
Qed.

Lemma skipn_length_app (before after : list Event) :
  skipn (List.length before) (before ++ after) = after.
Proof. induction before; simpl; auto. Qed.

Lemma nth_error_last_of (before : list Event) p after :
  nth_error ((before ++ [p]) ++ after) (List.length (before ++ [p]) - 1)
    = Some p.
Proof.
  rewrite length_app. simpl.
  replace (List.length before + 1 - 1)%nat with (List.length before) by lia.
  rewrite <- app_assoc, nth_error_app2, Nat.sub_diag by lia. reflexivity.
Qed.

Lemma getWeeklyEvents_filter ws we st :
  store_inv (events_ st) ->
  Forall (fun E => 0 <= id E) (events_ st) ->
  ws <= we ->
  getWeeklyEvents ws we st
    = filter (fun E => (start_utc E <? we) && (end_utc E >? ws)) (events_ st).
Proof.
  intros Hinv Hid Hle. unfold getWeeklyEvents.
  destruct (lower_bound_cut (mkEvent 0 EmptyString ws ws) (events_ st) (proj1 Hinv))
    as (before & after & Heq & Hlb & Hbefore & Hafter).
  rewrite Hlb, Heq in *. clear Hlb Heq.
  rewrite skipn_length_app, filter_app.
  pose proof Hinv as (Hwf & Hval & _).
  unfold valid_intervals in Hval.
  rewrite Forall_forall in Hbefore, Hafter, Hval, Hid.
  f_equal.
  - destruct before as [|p before' _] using rev_ind; [reflexivity|].
    rewrite nth_error_last_of.
    replace (negb (Nat.eqb (List.length (before' ++ [p])) O)) with true
      by (rewrite length_app; simpl;
          destruct (Nat.eqb_spec (List.length before' + 1) O); [lia | auto]).
    rewrite filter_app, filter_none; simpl.
    + assert (Hp : EventComparator p (mkEvent 0 EmptyString ws ws) = true)
        by (apply Hbefore, in_or_app; right; left; auto).
      assert (0 <= id p)
        by (apply Hid, in_or_app; left; apply in_or_app; right; left; auto).
      assert (Hlt : (start_utc p <? we) = true)
        by (apply Z.ltb_lt; clear - Hp H Hle; order_facts; lia).
      rewrite Hlt. simpl. destruct (end_utc p >? ws); reflexivity.
    + intros b Hb. apply andb_false_iff. right.
      apply in_split in Hb. destruct Hb as (l1 & l2 & ->).
      assert (Hch : end_utc b <= start_utc p).
      { apply (store_chain l1 b (l2 ++ p :: after) p).
        - repeat rewrite <- app_assoc in Hinv. simpl in Hinv. exact Hinv.
        - apply in_or_app; right; left; auto. }
      assert (Hp : EventComparator p (mkEvent 0 EmptyString ws ws) = true)
        by (apply Hbefore, in_or_app; right; left; auto).
      pose proof (comparator_start _ _ Hp) as Hps. simpl in Hps.
      rewrite Z.gtb_ltb. apply Z.ltb_ge. lia.
  - rewrite (collect_until_filter we after (set_wf_app_r _ _ Hwf)).
    apply filter_ext_in. intros a Ha.
    assert (Hv : start_utc a < end_utc a) by (apply Hval, in_or_app; auto).
    specialize (Hafter a Ha).
    assert (Hgt : (end_utc a >? ws) = true)
      by (rewrite Z.gtb_ltb; apply Z.ltb_lt; clear - Hafter Hv; order_facts; lia).
    rewrite Hgt, andb_true_r. reflexivity.
Qed.

(** C4, as the code has it.  On a state that satisfies the store invariants
    and whose identifiers are non-negative, and for bounds with
    rangeStart <= rangeEnd, [getWeeklyEvents] returns exactly the stored
    events E with E.start < rangeEnd and E.end > rangeStart, in the order of
    the store, which is by ascending start; an event that starts before
    rangeStart and ends after it is among them. *)
Theorem getWeeklyEvents_range ws we st :
  store_inv (events_ st) ->
  Forall (fun E => 0 <= id E) (events_ st) ->
  ws <= we ->
  getWeeklyEvents ws we st
    = filter (fun E => (start_utc E <? we) && (end_utc E >? ws)) (events_ st) /\
  StronglySorted (fun a b => start_utc a < start_utc b)
    (getWeeklyEvents ws we st) /\
  (forall E, In E (getWeeklyEvents ws we st) <->
     In E (events_ st) /\ start_utc E < we /\ end_utc E > ws) /\
  (forall E, In E (events_ st) -> start_utc E < ws -> end_utc E > ws ->
     In E (getWeeklyEvents ws we st)).
Proof.
  intros Hinv Hid Hle.
  pose proof (getWeeklyEvents_filter ws we st Hinv Hid Hle) as Heq.
  assert (Hmem : forall E, In E (getWeeklyEvents ws we st) <->
     In E (events_ st) /\ start_utc E < we /\ end_utc E > ws).
  { intros E. rewrite Heq, filter_In, andb_true_iff, Z.ltb_lt, Z.gtb_ltb, Z.ltb_lt.
    intuition lia. }
  repeat split; try apply Hmem; auto.
  - rewrite Heq. apply strict_filter, store_inv_start_sorted, Hinv.
  - intros E HE Hs He. apply Hmem. repeat split; auto; lia.
Qed.

Lemma getWeeklyEvents_range_witness :
  let st := {| events_ := [mkEvent 2 "sun" 84600 88200; mkEvent 1 "mon" 118800 122400;
                           mkEvent 3 "tue" 201600 205200;
                           mkEvent 4 "next" 700000 703600];
               next_event_id_ := 5 |} in
  store_inv (events_ st) /\
  Forall (fun E => 0 <= id E) (events_ st) /\
  86400 <= 691200 /\
  getWeeklyEvents 86400 691200 st
    = filter (fun E => (start_utc E <? 691200) && (end_utc E >? 86400))
        (events_ st).
Proof.
  intros st.
  assert (Hinv : store_inv (events_ st)) by (subst st; simpl; concrete_store_inv).
  assert (Hid : Forall (fun E => 0 <= id E) (events_ st))
    by (repeat constructor; simpl; lia).
  split; [exact Hinv|]. split; [exact Hid|]. split; [lia|].
  apply (getWeeklyEvents_range 86400 691200 st Hinv Hid). lia.
Defined.

Example getWeeklyEvents_spanning :
  getWeeklyEvents 86400 691200
    {| events_ := [mkEvent 2 "sun" 84600 88200; mkEvent 1 "mon" 118800 122400;
                   mkEvent 3 "tue" 201600 205200;
                   mkEvent 4 "next" 700000 703600];
       next_event_id_ := 5 |}
  = [mkEvent 2 "sun" 84600 88200; mkEvent 1 "mon" 118800 122400;
     mkEvent 3 "tue" 201600 205200].
Proof. reflexivity. Qed.

(** C4 as stated, for every pair of bounds, fails: with rangeEnd below
    rangeStart the event before the iterator is returned on the sole test
    end > rangeStart, although its start is not below rangeEnd. *)
Lemma getWeeklyEvents_inverted_bounds :
  let st := {| events_ := [mkEvent 1 "a" 5 10]; next_event_id_ := 2 |} in
  reachable st /\ service_inv st /\
  getWeeklyEvents 7 3 st = [mkEvent 1 "a" 5 10] /\
  ~ (forall E, In E (getWeeklyEvents 7 3 st) <->
       In E (events_ st) /\ start_utc E < 3 /\ end_utc E > 7).
Proof.
  intros st.
  assert (Hreach : reachable st)
    by (exists [Create "a" 5 10], [Created 1]; reflexivity).
  split; [exact Hreach|]. split; [apply reachable_inv; exact Hreach|].
  split; [reflexivity|].
  intros H. destruct (proj1 (H (mkEvent 1 "a" 5 10))) as (_ & Hlt & _).
  - simpl. auto.
  - simpl in Hlt. lia.
Qed.

(** ** Titles do not matter *)

Lemma comparator_strip_l a b :
  EventComparator (strip a) b = EventComparator a b.
Proof. reflexivity. Qed.

Lemma comparator_strip_r a b :
  EventComparator a (strip b) = EventComparator a b.
Proof. reflexivity. Qed.

Lemma untitled_strip_one a b : untitled a = untitled b <-> strip a = strip b.
Proof.
  destruct a, b. unfold untitled, strip. simpl.
  split; intros [= -> -> ->]; reflexivity.
Qed.

Lemma untitled_strip (l1 l2 : list Event) :
  map untitled l1 = map untitled l2 <-> map strip l1 = map strip l2.
Proof.
  revert l2. induction l1 as [|a l1 IH]; intros [|b l2]; simpl;
    split; try discriminate; auto; intros H.
  - assert (Hhd : untitled a = untitled b) by congruence.
    assert (Htl : map untitled l1 = map untitled l2) by congruence.
    apply untitled_strip_one in Hhd. apply IH in Htl. congruence.
  - assert (Hhd : strip a = strip b) by congruence.
    assert (Htl : map strip l1 = map strip l2) by congruence.
    apply untitled_strip_one in Hhd. apply IH in Htl. congruence.
Qed.

Lemma lower_bound_strip x l :
  lower_bound x (map strip l) = lower_bound x l.
Proof.
  induction l as [|a l IH]; simpl; auto.
  rewrite comparator_strip_l, IH. reflexivity.
Qed.

Lemma nth_error_strip l n (f : Event -> bool) :
  (forall ev, f (strip ev) = f ev) ->
  match nth_error (map strip l) n with Some ev => f ev | None => false end
  = match nth_error l n with Some ev => f ev | None => false end.
Proof.
  intros Hf. rewrite nth_error_map. destruct (nth_error l n); simpl; auto.
Qed.

Lemma hasConflict_strip l s e :
  hasConflict (map strip l) s e = hasConflict l s e.
Proof.
  unfold hasConflict. rewrite lower_bound_strip.
  rewrite !(nth_error_strip l _ (overlaps s e)) by reflexivity.
  reflexivity.
Qed.

Lemma set_insert_strip x l :
  map strip (set_insert x l) = set_insert (strip x) (map strip l).
Proof.
  induction l as [|a l IH]; simpl; auto.
  rewrite comparator_strip_l, !comparator_strip_r, comparator_strip_l.
  destruct (EventComparator x a); simpl; auto.
  destruct (EventComparator a x); simpl; auto.
  now rewrite IH.
Qed.

Lemma set_erase_strip n l :
  map strip (set_erase n l) = set_erase n (map strip l).
Proof.
  revert n. induction l as [|a l IH]; intros [|n]; simpl; auto.
  now rewrite IH.
Qed.

Lemma findEventById_strip event_id l :
  findEventById event_id (map strip l) = findEventById event_id l.
Proof.
  induction l as [|a l IH]; simpl; auto.
  destruct (id a =? event_id); auto.
Qed.

Lemma collect_until_strip we l :
  map strip (collect_until we l) = collect_until we (map strip l).
Proof.
  induction l as [|a l IH]; simpl; auto.
  destruct (start_utc a <? we); simpl; auto. now rewrite IH.
Qed.

Lemma createEvent_strip ttl s e st :
  createEvent EmptyString s e (strip_service st)
  = match createEvent ttl s e st with
    | Some (r, st') => Some (r, strip_service st')
    | None => None
    end.
Proof.
  unfold createEvent, getNextEventId. simpl.
  destruct (s >=? e); auto.
  rewrite hasConflict_strip.
  destruct (hasConflict (events_ st) s e); auto.
  destruct (next_event_id_ st + 1 <=? INT_MAX); auto.
  simpl. unfold strip_service. simpl. rewrite set_insert_strip. reflexivity.
Qed.

Lemma deleteEvent_strip event_id st :
  deleteEvent event_id (strip_service st)
  = (fst (deleteEvent event_id st),
     strip_service (snd (deleteEvent event_id st))).
Proof.
  unfold deleteEvent. simpl.
  rewrite findEventById_strip, length_map.
  destruct (Nat.eqb (findEventById event_id (events_ st))
                    (List.length (events_ st))); simpl; auto.
  unfold strip_service. simpl. now rewrite set_erase_strip.
Qed.

Lemma getWeeklyEvents_strip ws we st :
  getWeeklyEvents ws we (strip_service st)
  = map strip (getWeeklyEvents ws we st).
Proof.
  unfold getWeeklyEvents. simpl.
  rewrite lower_bound_strip, map_app, collect_until_strip, skipn_map.
  f_equal.
  destruct (negb (Nat.eqb (lower_bound (mkEvent 0 EmptyString ws ws) (events_ st)) O));
    auto.
  rewrite nth_error_map.
  destruct (nth_error (events_ st) _) as [ev|]; simpl; auto.
  destruct (end_utc ev >? ws); reflexivity.
Qed.

Lemma getAllEvents_strip st :
  getAllEvents (strip_service st) = map strip (getAllEvents st).
Proof. unfold getAllEvents. now rewrite !push_back_all. Qed.

Lemma observe_strip l :
  map untitled (map strip l) = map untitled l.
Proof. rewrite map_map. apply map_ext. reflexivity. Qed.

(** One step on the stripped state is the stripped step. *)
Lemma step_strip o st :
  match step o st, step (strip_op o) (strip_service st) with
  | Some (r, st'), Some (r0, st0) =>
      observe r0 = observe r /\ st0 = strip_service st'
  | None, None => True
  | _, _ => False
  end.
Proof.
  destruct o as [ttl s e | event_id | ws we |]; simpl.
  - rewrite (createEvent_strip ttl s e st).
    destruct (createEvent ttl s e st) as [[r st']|]; auto.
  - rewrite deleteEvent_strip.
    destruct (deleteEvent event_id st) as [b st']; simpl; auto.
  - rewrite getWeeklyEvents_strip, observe_strip. auto.
  - rewrite getAllEvents_strip, observe_strip. auto.
Qed.

Lemma run_strip ops : forall st,
  match run ops st, run (map strip_op ops) (strip_service st) with
  | Some (rs, st'), Some (rs0, st0) =>
      map observe rs0 = map observe rs /\ st0 = strip_service st'
  | None, None => True
  | _, _ => False
  end.
Proof.
  induction ops as [|o ops IH]; intros st; simpl; auto.
  pose proof (step_strip o st) as Hstep.
  destruct (step o st) as [[r st1]|];
    destruct (step (strip_op o) (strip_service st)) as [[r0 st0]|];
    try contradiction; auto.
  destruct Hstep as (Hr & ->).
  specialize (IH st1).
  destruct (run ops st1) as [[rs st2]|];
    destruct (run (map strip_op ops) (strip_service st1)) as [[rs0 st3]|];
    try contradiction; auto.
  destruct IH as (Hrs & ->). simpl. split; congruence.
Qed.

(** C9.  Two sequences of operations that differ at most in the titles
    passed to [createEvent], run from the initial state: either both runs
    are undefined, or both are defined, every operation returns the same
    outcome in both (the same identifier or -1 for a creation, the same
    answer for a deletion, the same (id, start, end) triples for a listing),
    and the final stores hold the same (id, start, end) triples in the same
    order, with the same counter. *)
Theorem titles_do_not_interfere ops1 ops2 :
  map strip_op ops1 = map strip_op ops2 ->
  (run ops1 init = None /\ run ops2 init = None) \/
  (exists rs1 st1 rs2 st2,
     run ops1 init = Some (rs1, st1) /\
     run ops2 init = Some (rs2, st2) /\
     map observe rs1 = map observe rs2 /\
     map untitled (events_ st1) = map untitled (events_ st2) /\
     next_event_id_ st1 = next_event_id_ st2).
Proof.
  intros Hops.
  pose proof (run_strip ops1 init) as H1.
  pose proof (run_strip ops2 init) as H2.
  rewrite Hops in H1.
  destruct (run ops1 init) as [[rs1 st1]|];
    destruct (run ops2 init) as [[rs2 st2]|];
    destruct (run (map strip_op ops2) (strip_service init)) as [[rs0 st0]|];
    try contradiction; auto.
  right. destruct H1 as (Hr1 & Hs1), H2 as (Hr2 & Hs2).
  exists rs1, st1, rs2, st2. repeat split; try congruence.
  - apply untitled_strip.
    change (events_ (strip_service st1) = events_ (strip_service st2)).
    congruence.
  - change (next_event_id_ (strip_service st1)
            = next_event_id_ (strip_service st2)).
    congruence.
Qed.

Lemma titles_do_not_interfere_witness :
  let ops1 := [Create "standup" 10 20; Create "lunch" 15 25; Delete 1;
               Create "review" 12 18; AllEvents] in
  let ops2 := [Create "x" 10 20; Create "y" 15 25; Delete 1;
               Create "z" 12 18; AllEvents] in
  map strip_op ops1 = map strip_op ops2 /\
  exists rs1 st1 rs2 st2,
    run ops1 init = Some (rs1, st1) /\
    run ops2 init = Some (rs2, st2) /\
    map observe rs1 = map observe rs2 /\
    map untitled (events_ st1) = map untitled (events_ st2) /\
    next_event_id_ st1 = next_event_id_ st2.
Proof.
  intros ops1 ops2.
  assert (Hops : map strip_op ops1 = map strip_op ops2) by reflexivity.
  split; [exact Hops|].
  destruct (titles_do_not_interfere ops1 ops2 Hops) as [(H1 & _) | H].
  - discriminate H1.
  - exact H.
Defined.

(** ** Two racing calls *)

Lemma createEvent_invalid ttl s e st :
  (s >=? e) = true -> createEvent ttl s e st = Some (-1, st).
Proof. intros H. unfold createEvent. now rewrite H. Qed.

Lemma view_waiting a p pre cur :
  waiting p = true -> view a p pre cur -> cur = pre.
Proof. destruct p; simpl; try discriminate; intuition. Qed.

Lemma view_waiting_refl a p pre cur x :
  waiting p = true -> view a p pre cur -> view a p x x.
Proof. destruct p; simpl; try discriminate; intuition. Qed.

(** A step of a thread keeps its view, on the state it runs on. *)
Lemma view_step a p pre sh p' sh' :
  view a p pre (service sh) ->
  thread_step a p sh = Some (p', sh') ->
  view a p' pre (service sh').
Proof.
  destruct p as [| | | | i | r | r]; simpl.
  - intros Heq. subst pre.
    destruct (c_start a >=? c_end a) eqn:Hv; intros [= <- <-]; simpl.
    + apply createEvent_invalid; assumption.
    + auto.
  - intros (Hv & Heq). subst pre.
    destruct (calendar_mutex_ sh); [discriminate|].
    intros [= <- <-]. simpl. auto.
  - intros (Hv & Heq). subst pre.
    destruct (hasConflict (events_ (service sh)) (c_start a) (c_end a)) eqn:Hc;
      intros [= <- <-]; simpl.
    + unfold createEvent. rewrite Hv, Hc. reflexivity.
    + auto.
  - intros (Hv & Hc & Heq). subst pre.
    destruct (getNextEventId (service sh)) as [[i st1]|] eqn:Hid;
      [|discriminate].
    intros [= <- <-]. simpl. auto.
  - intros (Hv & Hc & Hid) [= <- <-]. simpl.
    unfold createEvent. rewrite Hv, Hc.
    unfold getNextEventId in *.
    destruct (next_event_id_ pre + 1 <=? INT_MAX); [|discriminate].
    injection Hid as -> Hsh. rewrite <- Hsh. reflexivity.
  - intros Hcr [= <- <-]. simpl. assumption.
  - discriminate.
Qed.

Lemma lock_ok_sym pa pb sh : lock_ok pa pb sh -> lock_ok pb pa sh.
Proof.
  unfold lock_ok. rewrite (orb_comm (critical pb)), (andb_comm (critical pb)).
  auto.
Qed.

Lemma lock_ok_step a pa pb sh pa' sh' :
  lock_ok pa pb sh ->
  thread_step a pa sh = Some (pa', sh') ->
  lock_ok pa' pb sh'.
Proof.
  unfold lock_ok. intros (Hm & Hx).
  destruct pa as [| | | | i | r | r]; simpl in *.
  - destruct (c_start a >=? c_end a); intros [= <- <-]; simpl; auto.
  - destruct (calendar_mutex_ sh) eqn:Hlk; [discriminate|].
    intros [= <- <-]. simpl. rewrite <- Hm. auto.
  - destruct (hasConflict _ _ _); intros [= <- <-]; simpl; auto.
  - destruct (getNextEventId (service sh)) as [[i st1]|]; [|discriminate].
    intros [= <- <-]. simpl. auto.
  - intros [= <- <-]. simpl. auto.
  - intros [= <- <-]. simpl. rewrite Hx. auto.
  - discriminate.
Qed.

(** The thread that comes first takes a step. *)
Lemma ordered_step_first a b pa pb st sh pa' sh' :
  lock_ok pa pb sh ->
  ordered a b pa pb st (service sh) ->
  thread_step a pa sh = Some (pa', sh') ->
  ordered a b pa' pb st (service sh') \/ ordered b a pb pa' st (service sh').
Proof.
  intros (Hm & Hx) (mid & Va & Vb & Hside) Hstep.
  destruct (waiting pb) eqn:Hwb.
  - (* the other thread has not touched the service *)
    left. pose proof (view_waiting _ _ _ _ Hwb Vb) as Hcur.
    rewrite <- Hcur in Va.
    exists (service sh'). split; [eapply view_step; eauto|].
    split; [eapply view_waiting_refl; eauto | auto].
  - destruct Hside as [Hw | Hca]; [discriminate|].
    destruct pa as [| | | | i | r | r]; simpl in Hca; try discriminate.
    + (* AtEntry *)
      left. simpl in Va. subst mid. simpl in Hstep.
      exists st. destruct (c_start a >=? c_end a) eqn:Hv;
        injection Hstep as <- <-; simpl; repeat split; auto.
      apply createEvent_invalid; assumption.
    + (* AtLock: the mutex is free, so the other thread has returned *)
      right. simpl in Va. destruct Va as (Hv & ->). simpl in Hstep.
      destruct (calendar_mutex_ sh) eqn:Hlk; [discriminate|].
      injection Hstep as <- <-. simpl in *.
      exists (service sh). repeat split; auto.
Qed.

(** The thread that comes second takes a step. *)
Lemma ordered_step_second a b pa pb st sh pb' sh' :
  lock_ok pa pb sh ->
  ordered a b pa pb st (service sh) ->
  thread_step b pb sh = Some (pb', sh') ->
  ordered a b pa pb' st (service sh') \/ ordered b a pb' pa st (service sh').
Proof.
  intros (Hm & Hx) (mid & Va & Vb & Hside) Hstep.
  pose proof (view_step _ _ _ _ _ _ Vb Hstep) as Vb'.
  destruct (critical pa) eqn:Hca.
  - destruct Hside as [Hwb | ?]; [|discriminate].
    pose proof (view_waiting _ _ _ _ Hwb Vb) as Hcur.
    simpl in Hm.
    destruct pb as [| | | | i | r | r]; simpl in Hwb; try discriminate;
      simpl in Hstep.
    + destruct (c_start b >=? c_end b) eqn:Hv; injection Hstep as <- <-.
      * right. exists st. split; [apply createEvent_invalid; assumption|].
        split; [rewrite Hcur; assumption | right; reflexivity].
      * left. exists mid. repeat split; auto.
    + rewrite Hm in Hstep. discriminate.
  - left. exists mid. auto.
Qed.

Lemma race_inv_start a1 a2 st : race_inv a1 a2 st (start_config st).
Proof.
  simpl. split; [split; reflexivity|].
  left. exists st. simpl. auto.
Qed.

Lemma race_inv_run a1 a2 st sched : forall c c',
  race_inv a1 a2 st c -> sys_run a1 a2 sched c = Some c' ->
  race_inv a1 a2 st c'.
Proof.
  induction sched as [|t sched IH]; intros [[p1 p2] sh] c' Hinv; simpl.
  - intros [= <-]. assumption.
  - destruct Hinv as (Hlk & Hord). destruct t.
    + destruct (thread_step a1 p1 sh) as [[p1' sh']|] eqn:Hstep; [|discriminate].
      apply IH. split; [eapply lock_ok_step; eauto|].
      destruct Hord as [H | H].
      * eapply ordered_step_first; eauto.
      * apply or_comm. eapply ordered_step_second; eauto using lock_ok_sym.
    + destruct (thread_step a2 p2 sh) as [[p2' sh']|] eqn:Hstep; [|discriminate].
      apply IH.
      split; [apply lock_ok_sym; eapply lock_ok_step; eauto using lock_ok_sym|].
      destruct Hord as [H | H].
      * eapply ordered_step_second; eauto.
      * apply or_comm. eapply ordered_step_first; eauto using lock_ok_sym.
Qed.

(** Whatever the interleaving, two calls that have both returned did what
    they would have done one after the other, in one of the two orders. *)
Lemma two_calls_serialise a1 a2 st sched r1 r2 sh :
  sys_run a1 a2 sched (start_config st) = Some (Returned r1, Returned r2, sh) ->
  (exists mid,
     createEvent (c_title a1) (c_start a1) (c_end a1) st = Some (r1, mid) /\
     createEvent (c_title a2) (c_start a2) (c_end a2) mid
       = Some (r2, service sh)) \/
  (exists mid,
     createEvent (c_title a2) (c_start a2) (c_end a2) st = Some (r2, mid) /\
     createEvent (c_title a1) (c_start a1) (c_end a1) mid
       = Some (r1, service sh)).
Proof.
  intros Hrun.
  destruct (race_inv_run a1 a2 st sched _ _ (race_inv_start a1 a2 st) Hrun)
    as (_ & [(mid & V1 & V2 & _) | (mid & V2 & V1 & _)]);
    [left | right]; exists mid; auto.
Qed.

Lemma createEvent_success ttl s e st w st' :
  createEvent ttl s e st = Some (w, st') -> w <> -1 ->
  (s >=? e) = false /\
  hasConflict (events_ st) s e = false /\
  next_event_id_ st + 1 <= INT_MAX /\
  w = next_event_id_ st /\
  st' = {| events_ := set_insert (mkEvent w ttl s e) (events_ st);
           next_event_id_ := next_event_id_ st + 1 |}.
Proof.
  unfold createEvent, getNextEventId.
  destruct (s >=? e); [intros [= <- _]; congruence|].
  destruct (hasConflict (events_ st) s e); [intros [= <- _]; congruence|].
  destruct (Z.leb_spec (next_event_id_ st + 1) INT_MAX); [|discriminate].
  intros [= <- <-] _. simpl. auto.
Qed.

(** After a successful creation, an overlapping candidate is in conflict. *)
Lemma winner_blocks ttl s e st w st' s' e' :
  service_inv st ->
  createEvent ttl s e st = Some (w, st') -> w <> -1 ->
  s < e' -> s' < e ->
  hasConflict (events_ st') s' e' = true.
Proof.
  intros Hinv Hcr Hw H1 H2.
  pose proof (createEvent_store_inv _ _ _ _ _ _ (proj1 Hinv) Hcr) as Hst'.
  destruct (createEvent_success _ _ _ _ _ _ Hcr Hw) as (_ & _ & _ & Hid & ->).
  apply hasConflict_overlap; auto. simpl.
  exists (mkEvent w ttl s e). simpl. split; [|lia].
  destruct (set_insert_fresh (mkEvent w ttl s e) (events_ st))
    as (l1 & l2 & _ & ->).
  - destruct Hinv as (_ & _ & Hids). rewrite Forall_forall in Hids.
    intros y Hy. specialize (Hids y Hy). simpl. lia.
  - apply in_or_app. right. left. reflexivity.
Qed.

Lemma loser_refused ttl s e st :
  (s >=? e) = false -> hasConflict (events_ st) s e = true ->
  createEvent ttl s e st = Some (-1, st).
Proof. intros Hv Hc. unfold createEvent. now rewrite Hv, Hc. Qed.

(** In the race the counter is never incremented out of range: a thread
    about to take an identifier runs on the initial state. *)
Lemma alloc_first a b pb st cur :
  ordered a b AtAlloc pb st cur -> cur = st.
Proof.
  intros (mid & (_ & _ & ->) & Vb & [Hw | Hc]); [|discriminate].
  eapply view_waiting; eauto.
Qed.

Lemma alloc_second a b pb st cur w st' :
  service_inv st ->
  createEvent (c_title b) (c_start b) (c_end b) st = Some (w, st') ->
  w <> -1 ->
  c_start b < c_end a -> c_start a < c_end b ->
  ordered b a pb AtAlloc st cur -> cur = st.
Proof.
  intros Hinv Hcr Hw H1 H2 (mid & Vb & (_ & Hc & ->) & [Hwa | Hcb]);
    [discriminate|].
  destruct pb as [| | | | i | r | r]; simpl in Hcb; try discriminate;
    simpl in Vb; try tauto.
  rewrite Hcr in Vb. injection Vb as <- <-.
  rewrite (winner_blocks _ _ _ _ _ _ _ _ Hinv Hcr Hw H1 H2) in Hc.
  discriminate.
Qed.

Lemma thread_can_step a p sh :
  (p = AtLock -> calendar_mutex_ sh = false) ->
  (p = AtAlloc -> next_event_id_ (service sh) + 1 <= INT_MAX) ->
  (forall r, p <> Returned r) ->
  exists p' sh', thread_step a p sh = Some (p', sh').
Proof.
  intros Hlock Halloc Hret. destruct p as [| | | | i | r | r]; simpl.
  - destruct (c_start a >=? c_end a); eauto.
  - rewrite Hlock by reflexivity. eauto.
  - destruct (hasConflict _ _ _); eauto.
  - unfold getNextEventId.
    destruct (Z.leb_spec (next_event_id_ (service sh) + 1) INT_MAX); eauto.
    specialize (Halloc eq_refl). lia.
  - eauto.
  - eauto.
  - destruct (Hret r). reflexivity.
Qed.

Lemma thread_step_nearer a p sh p' sh' :
  thread_step a p sh = Some (p', sh') ->
  (steps_left p' < steps_left p)%nat.
Proof.
  destruct p as [| | | | i | r | r]; simpl.
  - destruct (c_start a >=? c_end a); intros [= <- _]; simpl; lia.
  - destruct (calendar_mutex_ sh); [discriminate|]. intros [= <- _]; simpl; lia.
  - destruct (hasConflict _ _ _); intros [= <- _]; simpl; lia.
  - destruct (getNextEventId (service sh)) as [[i st1]|]; [|discriminate].
    intros [= <- _]; simpl; lia.
  - intros [= <- _]; simpl; lia.
  - intros [= <- _]; simpl; lia.
  - discriminate.
Qed.

Lemma race_step_defined a b pa pb st sh wa sta wb stb :
  service_inv st ->
  createEvent (c_title a) (c_start a) (c_end a) st = Some (wa, sta) ->
  wa <> -1 ->
  createEvent (c_title b) (c_start b) (c_end b) st = Some (wb, stb) ->
  wb <> -1 ->
  c_start a < c_end b -> c_start b < c_end a ->
  ordered a b pa pb st (service sh) \/ ordered b a pb pa st (service sh) ->
  critical pa = true \/ (calendar_mutex_ sh = false /\ waiting pa = true) ->
  exists pa' sh', thread_step a pa sh = Some (pa', sh').
Proof.
  intros Hinv Ha Hwa Hb Hwb H1 H2 Hord Hcan.
  apply thread_can_step.
  - intros ->. destruct Hcan as [Hc | (Hm & _)]; [discriminate | exact Hm].
  - intros ->.
    assert (Hst : service sh = st).
    { destruct Hord as [H | H].
      - eapply alloc_first; eauto.
      - eapply (alloc_second a b); eauto. }
    rewrite Hst.
    destruct (createEvent_success _ _ _ _ _ _ Ha Hwa) as (_ & _ & Hmax & _).
    exact Hmax.
  - intros r ->. destruct Hcan as [Hc | (_ & Hw)]; discriminate.
Qed.

(** C3.  Two threads call [createEvent] with overlapping intervals on a
    state that satisfies the service invariants and on which either call
    alone would succeed.  Under every schedule of their steps, the mutex
    included: as long as one of the calls has not returned some thread can
    take a step, and every step brings a thread nearer to its return; and
    once both have returned, exactly one of them has returned its
    identifier and the other -1, having found a conflict with the winner's
    event, the service being left as the winner alone leaves it. *)
Theorem racing_creates_one_winner a1 a2 st w1 st1 w2 st2 :
  service_inv st ->
  createEvent (c_title a1) (c_start a1) (c_end a1) st = Some (w1, st1) ->
  w1 <> -1 ->
  createEvent (c_title a2) (c_start a2) (c_end a2) st = Some (w2, st2) ->
  w2 <> -1 ->
  c_start a1 < c_end a2 -> c_start a2 < c_end a1 ->
  forall sched p1 p2 sh,
    sys_run a1 a2 sched (start_config st) = Some (p1, p2, sh) ->
    ((exists r1 r2, p1 = Returned r1 /\ p2 = Returned r2) \/
     (exists t c', sys_run a1 a2 [t] (p1, p2, sh) = Some c')) /\
    (forall t p1' p2' sh',
       sys_run a1 a2 [t] (p1, p2, sh) = Some (p1', p2', sh') ->
       (steps_left p1' + steps_left p2' < steps_left p1 + steps_left p2)%nat) /\
    (forall r1 r2, p1 = Returned r1 -> p2 = Returned r2 ->
       (r1 = w1 /\ r2 = -1 /\ service sh = st1 /\
        hasConflict (events_ st1) (c_start a2) (c_end a2) = true) \/
       (r1 = -1 /\ r2 = w2 /\ service sh = st2 /\
        hasConflict (events_ st2) (c_start a1) (c_end a1) = true)).
Proof.
  intros Hinv Hc1 Hw1 Hc2 Hw2 Hov1 Hov2 sched p1 p2 sh Hrun.
  pose proof (winner_blocks _ _ _ _ _ _ _ _ Hinv Hc1 Hw1 Hov1 Hov2) as Hb2.
  pose proof (winner_blocks _ _ _ _ _ _ _ _ Hinv Hc2 Hw2 Hov2 Hov1) as Hb1.
  destruct (createEvent_success _ _ _ _ _ _ Hc1 Hw1) as (Hv1 & _).
  destruct (createEvent_success _ _ _ _ _ _ Hc2 Hw2) as (Hv2 & _).
  split; [|split].
  - (* some thread can move *)
    destruct (race_inv_run a1 a2 st sched _ _ (race_inv_start a1 a2 st) Hrun)
      as (Hlk & Hord).
    assert (Hstep1 :
      critical p1 = true \/ (calendar_mutex_ sh = false /\ waiting p1 = true) ->
      exists t c', sys_run a1 a2 [t] (p1, p2, sh) = Some c').
    { intros Hcan.
      destruct (race_step_defined a1 a2 p1 p2 st sh _ _ _ _
                  Hinv Hc1 Hw1 Hc2 Hw2 Hov1 Hov2 Hord Hcan) as (p1' & sh' & Hs).
      exists true, (p1', p2, sh'). simpl. now rewrite Hs. }
    assert (Hstep2 :
      critical p2 = true \/ (calendar_mutex_ sh = false /\ waiting p2 = true) ->
      exists t c', sys_run a1 a2 [t] (p1, p2, sh) = Some c').
    { intros Hcan.
      destruct (race_step_defined a2 a1 p2 p1 st sh _ _ _ _
                  Hinv Hc2 Hw2 Hc1 Hw1 Hov2 Hov1 (proj1 (or_comm _ _) Hord) Hcan)
        as (p2' & sh' & Hs).
      exists false, (p1, p2', sh'). simpl. now rewrite Hs. }
    destruct Hlk as (Hm & _).
    destruct (critical p1) eqn:Hcr1; [right; apply Hstep1; auto|].
    destruct (critical p2) eqn:Hcr2; [right; apply Hstep2; auto|].
    simpl in Hm.
    destruct (waiting p1) eqn:Hwt1; [right; apply Hstep1; auto|].
    destruct (waiting p2) eqn:Hwt2; [right; apply Hstep2; auto|].
    left. destruct p1, p2; simpl in *; try discriminate. eauto.
  - (* every step brings a thread nearer to its return *)
    intros t p1' p2' sh'. simpl. destruct t.
    + destruct (thread_step a1 p1 sh) as [[q s']|] eqn:Hs; [|discriminate].
      intros [= <- <- <-]. pose proof (thread_step_nearer _ _ _ _ _ Hs). lia.
    + destruct (thread_step a2 p2 sh) as [[q s']|] eqn:Hs; [|discriminate].
      intros [= <- <- <-]. pose proof (thread_step_nearer _ _ _ _ _ Hs). lia.
  - (* one winner *)
    intros r1 r2 -> ->.
    destruct (two_calls_serialise a1 a2 st sched r1 r2 sh Hrun)
      as [(mid & Hfst & Hsnd) | (mid & Hfst & Hsnd)].
    + left. rewrite Hc1 in Hfst. injection Hfst as <- <-.
      rewrite (loser_refused _ _ _ _ Hv2 Hb2) in Hsnd.
      injection Hsnd as <- <-. auto.
    + right. rewrite Hc2 in Hfst. injection Hfst as <- <-.
      rewrite (loser_refused _ _ _ _ Hv1 Hb1) in Hsnd.
      injection Hsnd as <- <-. auto.
Qed.

Lemma racing_creates_one_winner_witness :
  let a1 := mkCall "Thread 1 Event" 3600 5400 in
  let a2 := mkCall "Thread 2 Event" 3600 5400 in
  let st1 := {| events_ := [mkEvent 1 "Thread 1 Event" 3600 5400];
                next_event_id_ := 2 |} in
  let st2 := {| events_ := [mkEvent 1 "Thread 2 Event" 3600 5400];
                next_event_id_ := 2 |} in
  let sched := [true; false; false; false; false; false; false;
                true; true; true] in
  let sh := {| service := st2; calendar_mutex_ := false |} in
  service_inv init /\
  createEvent (c_title a1) (c_start a1) (c_end a1) init = Some (1, st1) /\
  createEvent (c_title a2) (c_start a2) (c_end a2) init = Some (1, st2) /\
  sys_run a1 a2 sched (start_config init)
    = Some (Returned (-1), Returned 1, sh) /\
  ((-1 = 1 /\ 1 = -1 /\ service sh = st1 /\
    hasConflict (events_ st1) (c_start a2) (c_end a2) = true) \/
   (-1 = -1 /\ 1 = 1 /\ service sh = st2 /\
    hasConflict (events_ st2) (c_start a1) (c_end a1) = true)).
Proof.
  intros a1 a2 st1 st2 sched sh.
  assert (Hrun : sys_run a1 a2 sched (start_config init)
                 = Some (Returned (-1), Returned 1, sh)) by reflexivity.
  split; [apply init_inv|]. split; [reflexivity|]. split; [reflexivity|].
  split; [exact Hrun|].
  refine (proj2 (proj2 (racing_creates_one_winner a1 a2 init 1 st1 1 st2
            init_inv eq_refl _ eq_refl _ _ _ sched _ _ _ Hrun))
            (-1) 1 eq_refl eq_refl); simpl; lia.
Defined.

(** * Further properties of the service *)

(** ** The comparator *)

(** X1.  [EventComparator] is the strict order [std::set] asks for: no
    event is ordered before itself, two events are never ordered both ways,
    the order is transitive, and two events neither of which is ordered
    before the other have the same start and the same identifier. *)
Theorem EventComparator_strict_order a b c :
  EventComparator a a = false /\
  (EventComparator a b = true -> EventComparator b a = false) /\
  (EventComparator a b = true -> EventComparator b c = true ->
     EventComparator a c = true) /\
  (EventComparator a b = false -> EventComparator b a = false ->
     start_utc a = start_utc b /\ id a = id b).
Proof.
  repeat split; intros; order_facts; lia.
Qed.

Lemma EventComparator_strict_order_witness :
  let a := mkEvent 2 "a" 10 20 in
  let b := mkEvent 1 "b" 10 15 in
  let c := mkEvent 1 "c" 11 12 in
  EventComparator b a = true /\ EventComparator a c = true /\
  EventComparator b c = true /\ EventComparator a b = false.
Proof.
  intros a b c.
  assert (Hba : EventComparator b a = true) by reflexivity.
  assert (Hac : EventComparator a c = true) by reflexivity.
  split; [exact Hba|]. split; [exact Hac|]. split.
  - exact (proj1 (proj2 (proj2 (EventComparator_strict_order b a c))) Hba Hac).
  - exact (proj1 (proj2 (EventComparator_strict_order b a c)) Hba).
Defined.

(** ** Identifiers in the store *)

Lemma ids_unique_eq l a b :
  NoDup (map id l) -> In a l -> In b l -> id a = id b -> a = b.
Proof.
  induction l as [|x l IH]; simpl; intros Hnd Ha Hb Hid; [destruct Ha|].
  inversion Hnd as [|? ? Hnot Hnd']; subst.
  destruct Ha as [-> | Ha], Hb as [-> | Hb]; auto.
  - exfalso. apply Hnot. rewrite Hid. apply in_map. assumption.
  - exfalso. apply Hnot. rewrite <- Hid. apply in_map. assumption.
Qed.

Lemma NoDup_ids_insert (x : Event) l1 l2 :
  NoDup (map id (l1 ++ l2)) ->
  (forall y, In y (l1 ++ l2) -> id y <> id x) ->
  NoDup (map id (l1 ++ x :: l2)).
Proof.
  intros Hnd Hfresh. rewrite map_app. simpl.
  apply NoDup_Add with (a := id x) (l := map id l1 ++ map id l2).
  - apply Add_app.
  - rewrite <- map_app. split; auto.
    intros Hin. apply in_map_iff in Hin. destruct Hin as (y & Hy & Hin).
    apply (Hfresh y Hin Hy).
Qed.

Lemma NoDup_ids_remove (x : Event) l1 l2 :
  NoDup (map id (l1 ++ x :: l2)) ->
  NoDup (map id (l1 ++ l2)) /\ ~ In (id x) (map id (l1 ++ l2)).
Proof.
  rewrite !map_app. simpl. intros Hnd. split.
  - eapply NoDup_remove_1; eauto.
  - eapply NoDup_remove_2; eauto.
Qed.

Lemma step_ids_unique o st r st' :
  service_inv st -> NoDup (map id (events_ st)) ->
  step o st = Some (r, st') -> NoDup (map id (events_ st')).
Proof.
  intros (Hstore & Hnext & Hids) Hnd.
  destruct o as [ttl s e | event_id | ws we |]; simpl.
  - unfold createEvent, getNextEventId.
    destruct (s >=? e); [intros [= _ <-]; auto|].
    destruct (hasConflict (events_ st) s e); [intros [= _ <-]; auto|].
    destruct (next_event_id_ st + 1 <=? INT_MAX); [|discriminate].
    intros [= _ <-]. simpl.
    assert (Hfresh : forall y, In y (events_ st) ->
              id y <> id (mkEvent (next_event_id_ st) ttl s e)).
    { rewrite Forall_forall in Hids. intros y Hy. specialize (Hids y Hy).
      simpl. lia. }
    destruct (set_insert_fresh _ _ Hfresh) as (l1 & l2 & Heq & ->).
    rewrite Heq in *. apply NoDup_ids_insert; auto.
  - destruct (deleteEvent_cases event_id st) as [-> | (l1 & E & l2 & Heq & ->)];
      intros [= _ <-]; auto.
    simpl. rewrite Heq in Hnd. apply (NoDup_ids_remove E l1 l2 Hnd).
  - intros [= _ <-]. assumption.
  - intros [= _ <-]. assumption.
Qed.

Lemma run_ids_unique ops : forall st rs st',
  service_inv st -> NoDup (map id (events_ st)) ->
  run ops st = Some (rs, st') -> NoDup (map id (events_ st')).
Proof.
  induction ops as [|o ops IH]; intros st rs st' Hinv Hnd; simpl.
  - intros [= _ <-]. assumption.
  - destruct (step o st) as [[r st1]|] eqn:Hstep; [|discriminate].
    destruct (run ops st1) as [[rs1 st2]|] eqn:Hrun; [|discriminate].
    intros [= _ <-]. eapply IH; [| |exact Hrun].
    + eapply step_service_inv; eauto.
    + eapply step_ids_unique; eauto.
Qed.

(** X2.  In every state reached from the initial one, the stored events
    carry pairwise distinct identifiers, all of them issued already
    (between 1 and the counter, the counter excluded), the counter has not
    left the range of [int], and the stored events have strictly ascending
    start times. *)
Theorem reachable_ids_unique st :
  reachable st ->
  NoDup (map id (events_ st)) /\
  Forall (fun ev => 1 <= id ev < next_event_id_ st) (events_ st) /\
  1 <= next_event_id_ st <= INT_MAX /\
  StronglySorted (fun a b => start_utc a < start_utc b) (events_ st).
Proof.
  intros Hreach.
  destruct (reachable_inv st Hreach) as (Hstore & Hnext & Hids).
  repeat split; auto; try apply Hnext.
  - destruct Hreach as (ops & rs & Hrun).
    apply (run_ids_unique ops init rs st); auto.
    + apply init_inv.
    + constructor.
  - apply store_inv_start_sorted. assumption.
Qed.

Lemma reachable_ids_unique_witness :
  let st := {| events_ := [mkEvent 3 "d" 5 12; mkEvent 2 "b" 20 30];
               next_event_id_ := 4 |} in
  reachable st /\ NoDup (map id (events_ st)).
Proof.
  intros st.
  assert (Hreach : reachable st).
  { exists [Create "a" 10 20; Create "b" 20 30; Create "c" 15 25; Delete 1;
            Create "d" 5 12].
    exists [Created 1; Created 2; Created (-1); Deleted true; Created 3].
    reflexivity. }
  split; [exact Hreach|].
  apply (reachable_ids_unique st Hreach).
Defined.

(** ** Creating and deleting *)

Lemma findEventById_at l1 (x : Event) l2 :
  Forall (fun y => id y <> id x) l1 ->
  findEventById (id x) (l1 ++ x :: l2) = List.length l1.
Proof.
  induction l1 as [|a l1 IH]; simpl; intros Hall.
  - now rewrite Z.eqb_refl.
  - inversion Hall; subst.
    destruct (Z.eqb_spec (id a) (id x)); [contradiction|].
    f_equal. apply IH. assumption.
Qed.

Lemma deleteEvent_at l1 (x : Event) l2 n :
  Forall (fun y => id y <> id x) l1 ->
  deleteEvent (id x) {| events_ := l1 ++ x :: l2; next_event_id_ := n |}
  = (true, {| events_ := l1 ++ l2; next_event_id_ := n |}).
Proof.
  intros Hall. unfold deleteEvent. simpl.
  rewrite (findEventById_at l1 x l2 Hall), set_erase_middle, length_app. simpl.
  destruct (Nat.eqb_spec (List.length l1) (List.length l1 + S (List.length l2)));
    [lia | reflexivity].
Qed.

(** X3.  In a state that satisfies the service invariants, deleting the
    identifier a successful [createEvent] has just returned succeeds and
    gives back the sequence of stored events of before the creation; only
    the counter keeps its advance. *)
Theorem create_then_delete ttl s e st r st' :
  service_inv st ->
  createEvent ttl s e st = Some (r, st') -> r <> -1 ->
  deleteEvent r st'
  = (true, {| events_ := events_ st;
              next_event_id_ := next_event_id_ st + 1 |}).
Proof.
  intros (Hstore & Hnext & Hids) Hcr Hr.
  destruct (createEvent_success _ _ _ _ _ _ Hcr Hr) as (_ & _ & _ & -> & ->).
  rewrite Forall_forall in Hids.
  assert (Hfresh : forall y, In y (events_ st) ->
            id y <> id (mkEvent (next_event_id_ st) ttl s e)).
  { intros y Hy. specialize (Hids y Hy). simpl. lia. }
  destruct (set_insert_fresh _ _ Hfresh) as (l1 & l2 & Heq & ->).
  rewrite Heq.
  apply (deleteEvent_at l1 (mkEvent (next_event_id_ st) ttl s e) l2).
  apply Forall_forall. intros y Hy. apply Hfresh.
  rewrite Heq. apply in_or_app. auto.
Qed.

Lemma create_then_delete_witness :
  let st := {| events_ := [mkEvent 1 "a" 10 20; mkEvent 2 "b" 30 40];
               next_event_id_ := 3 |} in
  let st' := {| events_ := [mkEvent 1 "a" 10 20; mkEvent 3 "c" 20 30;
                            mkEvent 2 "b" 30 40];
                next_event_id_ := 4 |} in
  service_inv st /\
  createEvent "c" 20 30 st = Some (3, st') /\
  deleteEvent 3 st'
  = (true, {| events_ := events_ st; next_event_id_ := 4 |}).
Proof.
  intros st st'.
  assert (Hinv : service_inv st).
  { split; [subst st; simpl; concrete_store_inv|].
    split; [unfold INT_MAX; simpl; lia|].
    repeat constructor; simpl; lia. }
  assert (Hcr : createEvent "c" 20 30 st = Some (3, st')) by reflexivity.
  split; [exact Hinv|]. split; [exact Hcr|].
  apply (create_then_delete "c" 20 30 st 3 st' Hinv Hcr). lia.
Defined.

(** X4.  Where the stored identifiers are pairwise distinct (as in every
    reachable state), a deletion that succeeded leaves no stored event with
    that identifier, and deleting the same identifier again returns false
    and changes nothing. *)
Theorem delete_twice event_id st st' :
  NoDup (map id (events_ st)) ->
  deleteEvent event_id st = (true, st') ->
  (forall E, In E (events_ st') -> id E <> event_id) /\
  deleteEvent event_id st' = (false, st').
Proof.
  intros Hnd Hdel.
  assert (Hgone : forall E, In E (events_ st') -> id E <> event_id).
  { unfold deleteEvent in Hdel.
    destruct (Nat.eqb_spec (findEventById event_id (events_ st))
                           (List.length (events_ st))) as [Heq | Hne];
      simpl in Hdel; [discriminate|].
    assert (Hex : exists E, In E (events_ st) /\ id E = event_id).
    { clear - Hne. induction (events_ st) as [|a l IH]; simpl in *.
      - congruence.
      - destruct (Z.eqb_spec (id a) event_id); [eauto|].
        destruct IH as (E & HE & Hid); [congruence | eauto]. }
    destruct (findEventById_found _ _ Hex) as (l1 & E & l2 & Heq & Hid & _ & Hpos).
    rewrite Hpos, Heq, set_erase_middle in Hdel.
    injection Hdel as <-. simpl.
    rewrite Heq in Hnd. destruct (NoDup_ids_remove E l1 l2 Hnd) as (_ & Hnot).
    intros y Hy Hy'. apply Hnot. rewrite Hid, <- Hy'. apply in_map. assumption. }
  split; [exact Hgone|].
  unfold deleteEvent. rewrite (findEventById_missing _ _ Hgone).
  now rewrite Nat.eqb_refl.
Qed.

Lemma delete_twice_witness :
  let st := {| events_ := [mkEvent 1 "a" 10 20; mkEvent 2 "b" 30 40];
               next_event_id_ := 3 |} in
  let st' := {| events_ := [mkEvent 2 "b" 30 40]; next_event_id_ := 3 |} in
  NoDup (map id (events_ st)) /\
  deleteEvent 1 st = (true, st') /\
  deleteEvent 1 st' = (false, st').
Proof.
  intros st st'.
  assert (Hnd : NoDup (map id (events_ st))).
  { simpl. repeat constructor; simpl; intuition lia. }
  assert (Hdel : deleteEvent 1 st = (true, st')) by reflexivity.
  split; [exact Hnd|]. split; [exact Hdel|].
  apply (delete_twice 1 st st' Hnd Hdel).
Defined.

Lemma set_insert_between x l1 l2 :
  Forall (fun y => EventComparator y x = true) l1 ->
  Forall (fun y => EventComparator x y = true) l2 ->
  set_insert x (l1 ++ l2) = l1 ++ x :: l2.
Proof.
  intros H1 H2. induction l1 as [|a l1 IH]; simpl.
  - destruct l2 as [|b l2]; simpl; auto.
    inversion H2 as [|? ? Hb _]; subst. now rewrite Hb.
  - inversion H1 as [|? ? Ha H1']; subst.
    assert (Hxa : EventComparator x a = false)
      by (clear - Ha; order_facts; lia).
    rewrite Hxa, Ha, (IH H1'). reflexivity.
Qed.

(** X5.  Deleting a stored event frees its interval: in a state that
    satisfies the service invariants, with pairwise distinct identifiers
    and the counter below [INT_MAX], after [deleteEvent] of a stored event a
    [createEvent] for the same interval succeeds, takes the next identifier,
    and the store holds the same sequence of intervals as before the
    deletion. *)
Theorem delete_frees_interval ttl E st :
  service_inv st ->
  NoDup (map id (events_ st)) ->
  In E (events_ st) ->
  next_event_id_ st < INT_MAX ->
  exists st1 st2,
    deleteEvent (id E) st = (true, st1) /\
    createEvent ttl (start_utc E) (end_utc E) st1
      = Some (next_event_id_ st, st2) /\
    map span (events_ st2) = map span (events_ st) /\
    next_event_id_ st2 = next_event_id_ st + 1.
Proof.
  intros (Hstore & Hnext & Hids) Hnd HE Hmax.
  destruct (findEventById_found (id E) (events_ st)) as
    (l1 & E' & l2 & Heq & Hid & Hall & _); [eauto|].
  assert (E' = E).
  { apply (ids_unique_eq (events_ st)); auto.
    rewrite Heq. apply in_or_app. right. left. reflexivity. }
  subst E'. destruct st as [evs n]. simpl in *. subst evs.
  exists {| events_ := l1 ++ l2; next_event_id_ := n |}.
  pose proof (store_inv_remove _ _ _ Hstore) as Hstore'.
  (* the rest of the store lies strictly before or strictly after [E] *)
  pose proof Hstore as (Hwf & Hval & Hno).
  unfold valid_intervals in Hval. rewrite Forall_forall in Hval.
  assert (HvE : start_utc E < end_utc E)
    by (apply Hval, in_or_app; right; left; reflexivity).
  assert (Hbefore : forall y, In y l1 ->
            start_utc y < end_utc y /\ end_utc y <= start_utc E).
  { intros y Hy. split; [apply Hval, in_or_app; auto|].
    apply in_split in Hy. destruct Hy as (k1 & k2 & ->).
    apply (store_chain k1 y (k2 ++ E :: l2) E).
    - repeat rewrite <- app_assoc in Hstore. exact Hstore.
    - apply in_or_app. right. left. reflexivity. }
  assert (Hafter : forall y, In y l2 -> end_utc E <= start_utc y)
    by (intros y Hy; apply (store_chain l1 E l2 y); auto).
  assert (Hfree : hasConflict (l1 ++ l2) (start_utc E) (end_utc E) = false).
  { apply not_true_is_false. intros Hc.
    apply (hasConflict_overlap _ _ _ Hstore') in Hc.
    destruct Hc as (y & Hy & H1 & H2).
    apply in_app_or in Hy. destruct Hy as [Hy | Hy].
    - destruct (Hbefore y Hy). lia.
    - specialize (Hafter y Hy). lia. }
  eexists. split; [apply deleteEvent_at; assumption|].
  unfold createEvent, getNextEventId. simpl.
  destruct (Z.geb_spec (start_utc E) (end_utc E)); [lia|].
  rewrite Hfree.
  destruct (Z.leb_spec (n + 1) INT_MAX); [|lia].
  split; [reflexivity|]. simpl. split; [|reflexivity].
  rewrite set_insert_between.
  - rewrite !map_app. reflexivity.
  - apply Forall_forall. intros y Hy. destruct (Hbefore y Hy).
    order_facts; lia.
  - apply Forall_forall. intros y Hy. specialize (Hafter y Hy).
    order_facts; lia.
Qed.

Lemma delete_frees_interval_witness :
  let st := {| events_ := [mkEvent 1 "a" 10 20; mkEvent 2 "b" 20 30;
                           mkEvent 3 "c" 40 50];
               next_event_id_ := 4 |} in
  let E := mkEvent 2 "b" 20 30 in
  service_inv st /\ NoDup (map id (events_ st)) /\ In E (events_ st) /\
  next_event_id_ st < INT_MAX /\
  exists st1 st2,
    deleteEvent (id E) st = (true, st1) /\
    createEvent "again" (start_utc E) (end_utc E) st1
      = Some (next_event_id_ st, st2) /\
    map span (events_ st2) = map span (events_ st) /\
    next_event_id_ st2 = next_event_id_ st + 1.
Proof.
  intros st E.
  assert (Hinv : service_inv st).
  { split; [subst st; simpl; concrete_store_inv|].
    split; [unfold INT_MAX; simpl; lia|].
    repeat constructor; simpl; lia. }
  assert (Hnd : NoDup (map id (events_ st))).
  { simpl. repeat constructor; simpl; intuition lia. }
  assert (HE : In E (events_ st)) by (simpl; auto).
  assert (Hmax : next_event_id_ st < INT_MAX) by (unfold INT_MAX; simpl; lia).
  split; [exact Hinv|]. split; [exact Hnd|]. split; [exact HE|].
  split; [exact Hmax|].
  exact (delete_frees_interval "again" E st Hinv Hnd HE Hmax).
Defined.

(** ** The size of the store *)

Lemma removed_cons r rs : removed (r :: rs) = (removed [r] + removed rs)%nat.
Proof. destruct r as [z | [|] | l]; reflexivity. Qed.

Lemma step_count o st r st' :
  service_inv st -> step o st = Some (r, st') ->
  (List.length (events_ st') + removed [r]
   = List.length (events_ st) + List.length (issued [r]))%nat.
Proof.
  intros (Hstore & Hnext & Hids).
  destruct o as [ttl s e | event_id | ws we |]; simpl.
  - unfold createEvent, getNextEventId.
    destruct (s >=? e); [intros [= <- <-]; simpl; lia|].
    destruct (hasConflict (events_ st) s e); [intros [= <- <-]; simpl; lia|].
    destruct (next_event_id_ st + 1 <=? INT_MAX); [|discriminate].
    intros [= <- <-]. simpl.
    destruct (Z.eqb_spec (next_event_id_ st) (-1)); [lia|].
    destruct (set_insert_fresh (mkEvent (next_event_id_ st) ttl s e) (events_ st))
      as (l1 & l2 & Heq & ->).
    { rewrite Forall_forall in Hids. intros y Hy. specialize (Hids y Hy).
      simpl. lia. }
    rewrite Heq, !length_app. simpl. lia.
  - destruct (deleteEvent_cases event_id st) as [-> | (l1 & E & l2 & Heq & ->)];
      intros [= <- <-]; simpl; [lia|].
    rewrite Heq, !length_app. simpl. lia.
  - intros [= <- <-]. simpl. lia.
  - intros [= <- <-]. simpl. lia.
Qed.

Lemma run_count ops : forall st rs st',
  service_inv st -> run ops st = Some (rs, st') ->
  (List.length (events_ st') + removed rs
   = List.length (events_ st) + List.length (issued rs))%nat.
Proof.
  induction ops as [|o ops IH]; intros st rs st' Hinv; simpl.
  - intros [= <- <-]. simpl. lia.
  - destruct (step o st) as [[r st1]|] eqn:Hstep; [|discriminate].
    destruct (run ops st1) as [[rs1 st2]|] eqn:Hrun; [|discriminate].
    intros [= <- <-].
    rewrite removed_cons, issued_cons, length_app.
    pose proof (step_count _ _ _ _ Hinv Hstep).
    pose proof (IH st1 rs1 st2 (step_service_inv _ _ _ _ Hinv Hstep) Hrun).
    lia.
Qed.

(** X6.  After any run from the initial state, the number of stored events
    is the number of successful creations minus the number of deletions
    that returned true. *)
Theorem store_size ops rs st :
  run ops init = Some (rs, st) ->
  (List.length (events_ st) + removed rs = List.length (issued rs))%nat.
Proof.
  intros Hrun. apply (run_count ops init rs st init_inv Hrun).
Qed.

Lemma store_size_witness :
  let ops := [Create "a" 10 20; Create "b" 20 30; Create "c" 15 25; Delete 1;
              Delete 1; Create "d" 5 12] in
  let rs := [Created 1; Created 2; Created (-1); Deleted true; Deleted false;
             Created 3] in
  let st := {| events_ := [mkEvent 3 "d" 5 12; mkEvent 2 "b" 20 30];
               next_event_id_ := 4 |} in
  run ops init = Some (rs, st) /\
  (List.length (events_ st) + removed rs = List.length (issued rs))%nat.
Proof.
  intros ops rs st.
  assert (Hrun : run ops init = Some (rs, st)) by reflexivity.
  split; [exact Hrun|].
  exact (store_size ops rs st Hrun).
Defined.

(** ** The range query for arbitrary bounds *)

Lemma collect_until_In we l E : In E (collect_until we l) -> In E l.
Proof.
  induction l as [|a l IH]; simpl; auto.
  destruct (start_utc a <? we); simpl; [|tauto]. intuition.
Qed.

Lemma skipn_In (n : nat) (l : list Event) E : In E (skipn n l) -> In E l.
Proof.
  revert l. induction n as [|n IH]; intros [|a l]; simpl; auto.
Qed.

(** X7.  Whatever the state and the bounds, [getWeeklyEvents] returns
    stored events only.  On a state that satisfies the store invariants,
    with non-negative identifiers, and for any two bounds, ordered or not,
    it returns, in store order, exactly the stored events that either start
    before [week_start] and end after it, or start at [week_start] or later
    and before [week_end]. *)
Theorem getWeeklyEvents_any_bounds ws we st :
  (forall E, In E (getWeeklyEvents ws we st) -> In E (events_ st)) /\
  (store_inv (events_ st) ->
   Forall (fun E => 0 <= id E) (events_ st) ->
   getWeeklyEvents ws we st
   = filter (fun E => ((start_utc E <? ws) && (end_utc E >? ws))
                      || ((ws <=? start_utc E) && (start_utc E <? we)))
       (events_ st)).
Proof.
  split.
  - intros E. unfold getWeeklyEvents. intros HE. apply in_app_or in HE.
    destruct HE as [HE | HE].
    + destruct (negb _); [|destruct HE].
      destruct (nth_error (events_ st) _) as [p|] eqn:Hp; [|destruct HE].
      destruct (end_utc p >? ws); [|destruct HE].
      destruct HE as [<- | []]. eapply nth_error_In; eauto.
    + eapply skipn_In, collect_until_In; eauto.
  - intros Hinv Hid. unfold getWeeklyEvents.
    destruct (lower_bound_cut (mkEvent 0 EmptyString ws ws) (events_ st) (proj1 Hinv))
      as (before & after & Heq & Hlb & Hbefore & Hafter).
    rewrite Hlb, Heq in *. clear Hlb Heq.
    rewrite skipn_length_app, filter_app.
    pose proof Hinv as (Hwf & Hval & _).
    unfold valid_intervals in Hval.
    rewrite Forall_forall in Hbefore, Hafter, Hval, Hid.
    f_equal.
    + destruct before as [|p before' _] using rev_ind; [reflexivity|].
      rewrite nth_error_last_of.
      replace (negb (Nat.eqb (List.length (before' ++ [p])) O)) with true
        by (rewrite length_app; simpl;
            destruct (Nat.eqb_spec (List.length before' + 1) O); [lia | auto]).
      assert (Hp : EventComparator p (mkEvent 0 EmptyString ws ws) = true)
        by (apply Hbefore, in_or_app; right; left; auto).
      assert (Hidp : 0 <= id p)
        by (apply Hid, in_or_app; left; apply in_or_app; right; left; auto).
      assert (Hps : start_utc p < ws) by (clear - Hp Hidp; order_facts; lia).
      rewrite filter_app, filter_none; simpl.
      * rewrite (proj2 (Z.ltb_lt _ _) Hps), (proj2 (Z.leb_gt _ _) Hps).
        simpl. rewrite orb_false_r. destruct (end_utc p >? ws); reflexivity.
      * intros b Hb.
        apply in_split in Hb. destruct Hb as (l1 & l2 & ->).
        assert (Hch : end_utc b <= start_utc p).
        { apply (store_chain l1 b (l2 ++ p :: after) p).
          - repeat rewrite <- app_assoc in Hinv. simpl in Hinv. exact Hinv.
          - apply in_or_app; right; left; auto. }
        assert (Hvb : start_utc b < end_utc b).
        { apply Hval. apply in_or_app; left. apply in_or_app; left.
          apply in_or_app. right. left. reflexivity. }
        rewrite Z.gtb_ltb.
        rewrite (proj2 (Z.ltb_ge ws (end_utc b))) by lia.
        rewrite (proj2 (Z.leb_gt ws (start_utc b))) by lia.
        rewrite andb_false_r. reflexivity.
    + rewrite (collect_until_filter we after (set_wf_app_r _ _ Hwf)).
      apply filter_ext_in. intros a Ha.
      specialize (Hafter a Ha).
      assert (Hge : ws <= start_utc a) by (clear - Hafter; order_facts; lia).
      rewrite (proj2 (Z.ltb_ge (start_utc a) ws)) by lia.
      rewrite (proj2 (Z.leb_le _ _) Hge). reflexivity.
Qed.

Lemma getWeeklyEvents_any_bounds_witness :
  let st := {| events_ := [mkEvent 1 "a" 5 10; mkEvent 2 "b" 12 14];
               next_event_id_ := 3 |} in
  store_inv (events_ st) /\
  Forall (fun E => 0 <= id E) (events_ st) /\
  getWeeklyEvents 7 3 st
  = filter (fun E => ((start_utc E <? 7) && (end_utc E >? 7))
                     || ((7 <=? start_utc E) && (start_utc E <? 3)))
      (events_ st).
Proof.
  intros st.
  assert (Hinv : store_inv (events_ st)) by (subst st; simpl; concrete_store_inv).
  assert (Hid : Forall (fun E => 0 <= id E) (events_ st))
    by (repeat constructor; simpl; lia).
  split; [exact Hinv|]. split; [exact Hid|].
  exact (proj2 (getWeeklyEvents_any_bounds 7 3 st) Hinv Hid).
Defined.

(** ** More on two threads calling [createEvent] *)

(** X8.  For any two calls and any schedule of their steps, the mutex is
    held exactly while one thread is between taking the lock and returning,
    and the two threads are never both there. *)
Theorem mutex_excludes a1 a2 st sched p1 p2 sh :
  sys_run a1 a2 sched (start_config st) = Some (p1, p2, sh) ->
  calendar_mutex_ sh = critical p1 || critical p2 /\
  critical p1 && critical p2 = false.
Proof.
  intros Hrun.
  exact (proj1 (race_inv_run a1 a2 st sched _ _ (race_inv_start a1 a2 st) Hrun)).
Qed.

Lemma mutex_excludes_witness :
  let a1 := mkCall "one" 10 20 in
  let a2 := mkCall "two" 30 40 in
  let sched := [true; false; true; true] in
  sys_run a1 a2 sched (start_config init)
    = Some (AtAlloc, AtLock,
            {| service := init; calendar_mutex_ := true |}) /\
  true = critical AtAlloc || critical AtLock.
Proof.
  intros a1 a2 sched.
  assert (Hrun : sys_run a1 a2 sched (start_config init)
    = Some (AtAlloc, AtLock, {| service := init; calendar_mutex_ := true |}))
    by reflexivity.
  split; [exact Hrun|].
  exact (proj1 (mutex_excludes a1 a2 init sched _ _ _ Hrun)).
Defined.

(** X9.  Any two concurrent [createEvent] calls, whatever their arguments
    and the schedule, once both have returned have produced the results and
    the service state of the two calls made one after the other, in one of
    the two orders. *)
Theorem concurrent_creates_serialise a1 a2 st sched r1 r2 sh :
  sys_run a1 a2 sched (start_config st) = Some (Returned r1, Returned r2, sh) ->
  (exists mid,
     createEvent (c_title a1) (c_start a1) (c_end a1) st = Some (r1, mid) /\
     createEvent (c_title a2) (c_start a2) (c_end a2) mid
       = Some (r2, service sh)) \/
  (exists mid,
     createEvent (c_title a2) (c_start a2) (c_end a2) st = Some (r2, mid) /\
     createEvent (c_title a1) (c_start a1) (c_end a1) mid
       = Some (r1, service sh)).
Proof. apply two_calls_serialise. Qed.

Lemma concurrent_creates_serialise_witness :
  let a1 := mkCall "bad" 50 50 in
  let a2 := mkCall "good" 30 40 in
  let sched := [false; false; true; false; false; false; false] in
  let sh := {| service := {| events_ := [mkEvent 1 "good" 30 40];
                             next_event_id_ := 2 |};
               calendar_mutex_ := false |} in
  sys_run a1 a2 sched (start_config init)
    = Some (Returned (-1), Returned 1, sh) /\
  ((exists mid,
      createEvent (c_title a1) (c_start a1) (c_end a1) init = Some (-1, mid) /\
      createEvent (c_title a2) (c_start a2) (c_end a2) mid
        = Some (1, service sh)) \/
   (exists mid,
      createEvent (c_title a2) (c_start a2) (c_end a2) init = Some (1, mid) /\
      createEvent (c_title a1) (c_start a1) (c_end a1) mid
        = Some (-1, service sh))).
Proof.
  intros a1 a2 sched sh.
  assert (Hrun : sys_run a1 a2 sched (start_config init)
                 = Some (Returned (-1), Returned 1, sh)) by reflexivity.
  split; [exact Hrun|].
  exact (concurrent_creates_serialise a1 a2 init sched _ _ _ Hrun).
Defined.





(** * The time zone utilities *)

(** ** The table of offsets *)

Lemma timezone_table_sound tz_str :
  (isValidTimezone tz_str = true <->
     exists off, getOffsetSeconds tz_str = Ret off) /\
  (forall off, getOffsetSeconds tz_str = Ret off ->
     off = 0 \/ off = 19800 \/ off = -28800).
Proof.
  unfold isValidTimezone, getOffsetSeconds.
  destruct (String.eqb tz_str "UTC"); simpl;
    [|destruct (String.eqb tz_str "IST"); simpl;
      [|destruct (String.eqb tz_str "PST"); simpl]].
  all: split; [split; [eauto | try reflexivity] |].
  all: try discriminate.
  all: try (intros (off & H); discriminate).
  all: intros off H; try discriminate; injection H as <-; auto.
Qed.

(** X11.  [isValidTimezone] accepts exactly the strings for which
    [getOffsetSeconds] returns an offset instead of throwing; every offset
    is a whole number of minutes between -28800 and 19800 seconds. *)
Theorem timezone_table_consistent tz_str :
  (isValidTimezone tz_str = true <->
     exists off, getOffsetSeconds tz_str = Ret off) /\
  (isValidTimezone tz_str = false <-> getOffsetSeconds tz_str = Throw) /\
  (forall off, getOffsetSeconds tz_str = Ret off ->
     -28800 <= off <= 19800 /\ off mod 60 = 0).
Proof.
  unfold isValidTimezone, getOffsetSeconds.
  destruct (String.eqb tz_str "UTC"); simpl;
    [|destruct (String.eqb tz_str "IST"); simpl;
      [|destruct (String.eqb tz_str "PST"); simpl]].
  all: split; [split; [eauto | try reflexivity]
              | split; [split; try discriminate; auto|]].
  all: try discriminate.
  all: try (intros (off & H); discriminate).
  all: intros off H; try discriminate; injection H as <-;
       split; [lia | reflexivity].
Qed.

Lemma timezone_table_consistent_witness :
  isValidTimezone "IST" = true /\
  getOffsetSeconds "IST" = Ret 19800 /\
  (-28800 <= 19800 <= 19800 /\ 19800 mod 60 = 0) /\
  getOffsetSeconds "CET" = Throw.
Proof.
  assert (H : getOffsetSeconds "IST" = Ret 19800) by reflexivity.
  split; [reflexivity|]. split; [exact H|]. split.
  - exact (proj2 (proj2 (timezone_table_consistent "IST")) 19800 H).
  - exact (proj1 (proj1 (proj2 (timezone_table_consistent "CET"))) eq_refl).
Defined.

(** ** [daysSinceEpoch] *)

Lemma in_int_ok v : INT_MIN <= v <= INT_MAX -> in_int v = Ret v.
Proof.
  intros H. unfold in_int.
  destruct (Z.leb_spec INT_MIN v); [|lia].
  destruct (Z.leb_spec v INT_MAX); [|lia]. reflexivity.
Qed.

Lemma is_leap_mod y :
  0 <= y ->
  is_leap y = ((y mod 4 =? 0) && negb (y mod 100 =? 0)) || (y mod 400 =? 0).
Proof.
  intros Hy. unfold is_leap. now rewrite !Z.rem_mod_nonneg by lia.
Qed.

Lemma leaps_before_succ y :
  1 <= y ->
  leaps_before (y + 1) = leaps_before y + (if is_leap y then 1 else 0).
Proof.
  intros Hy. rewrite is_leap_mod by lia. unfold leaps_before.
  replace (y + 1 - 1) with y by lia.
  destruct (Z.eqb_spec (y mod 4) 0), (Z.eqb_spec (y mod 100) 0),
    (Z.eqb_spec (y mod 400) 0); simpl;
    Z.div_mod_to_equations; lia.
Qed.

Lemma year_loop_closed n : forall y d,
  1 <= y -> 0 <= d -> d + 366 * Z.of_nat n <= INT_MAX ->
  year_loop n y d
  = Ret (d + 365 * Z.of_nat n
         + (leaps_before (y + Z.of_nat n) - leaps_before y)).
Proof.
  induction n as [|n IH]; intros y d Hy Hd Hmax.
  - simpl. f_equal. replace (y + 0) with y by lia. lia.
  - cbn [year_loop].
    rewrite in_int_ok by (unfold INT_MIN; lia). cbn [bind].
    pose proof (leaps_before_succ y Hy) as Hstep.
    destruct (is_leap y).
    + rewrite in_int_ok by (unfold INT_MIN; lia). cbn [bind].
      rewrite IH by lia. f_equal.
      replace (y + 1 + Z.of_nat n) with (y + Z.of_nat (S n)) by lia. lia.
    + cbn [bind]. rewrite IH by lia. f_equal.
      replace (y + 1 + Z.of_nat n) with (y + Z.of_nat (S n)) by lia. lia.
Qed.

Lemma month_loop_closed n : forall m table d,
  (n + m <= List.length table)%nat ->
  Forall (fun x => 0 <= x <= 31) table ->
  0 <= d -> d + 31 * Z.of_nat n <= INT_MAX ->
  month_loop n m table d = Ret (d + sum_list (firstn n (skipn m table))).
Proof.
  induction n as [|n IH]; intros m table d Hlen Hall Hd Hmax.
  - simpl. f_equal. lia.
  - cbn [month_loop].
    destruct (nth_error table m) as [dm|] eqn:Hnth.
    + assert (Hdm : 0 <= dm <= 31).
      { rewrite Forall_forall in Hall. apply Hall. eapply nth_error_In; eauto. }
      rewrite in_int_ok by (unfold INT_MIN; lia). cbn [bind].
      rewrite IH by (auto; lia). f_equal.
      assert (Hsk : skipn m table = dm :: skipn (S m) table).
      { clear - Hnth. revert table Hnth.
        induction m as [|m IHm]; intros [|a l]; simpl; try discriminate.
        - intros [= ->]. reflexivity.
        - intros H. apply IHm in H. exact H. }
      rewrite Hsk. simpl. lia.
    + apply nth_error_None in Hnth. lia.
Qed.

Lemma month_cases month :
  1 <= month <= 12 ->
  month = 1 \/ month = 2 \/ month = 3 \/ month = 4 \/ month = 5 \/ month = 6 \/
  month = 7 \/ month = 8 \/ month = 9 \/ month = 10 \/ month = 11 \/ month = 12.
Proof. lia. Qed.

Lemma days_before_month_sum year month :
  1 <= month <= 12 ->
  sum_list (firstn (Z.to_nat (month - 1)) (days_in_month year))
  = days_before_month year month.
Proof.
  intros Hm. unfold days_before_month, days_in_month.
  destruct (month_cases month Hm) as
    [-> | [-> | [-> | [-> | [-> | [-> | [-> | [-> | [-> | [-> | [-> | ->]]]]]]]]]]];
    destruct (is_leap year); reflexivity.
Qed.

Lemma days_in_month_range year :
  Forall (fun x => 0 <= x <= 31) (days_in_month year) /\
  List.length (days_in_month year) = 12%nat.
Proof.
  unfold days_in_month. destruct (is_leap year);
    (split; [repeat constructor; lia | reflexivity]).
Qed.

Lemma leaps_before_mono a b : 1 <= a <= b -> leaps_before a <= leaps_before b.
Proof.
  intros H. unfold leaps_before. Z.div_mod_to_equations. lia.
Qed.

Lemma days_before_month_range year month :
  1 <= month <= 12 -> 0 <= days_before_month year month <= 335.
Proof.
  intros Hm. unfold days_before_month.
  destruct (month_cases month Hm) as
    [-> | [-> | [-> | [-> | [-> | [-> | [-> | [-> | [-> | [-> | [-> | ->]]]]]]]]]]];
    destruct (is_leap year); simpl; lia.
Qed.

(** What [daysSinceEpoch] computes, for days in a wide range. *)
Lemma daysSinceEpoch_closed year month day :
  1970 <= year <= 5000000 -> 1 <= month <= 12 -> -1000 <= day <= 1000 ->
  daysSinceEpoch year month day = Ret (day_number year month day).
Proof.
  intros Hy Hm Hd. unfold daysSinceEpoch, day_number.
  rewrite year_loop_closed by (unfold INT_MAX; lia). cbn [bind].
  rewrite in_int_ok by (unfold INT_MIN, INT_MAX; lia). cbn [bind].
  replace (1970 + Z.of_nat (Z.to_nat (year - 1970))) with year by lia.
  pose proof (leaps_before_mono 1970 year ltac:(lia)) as Hmono.
  assert (Hup : leaps_before year <= year).
  { unfold leaps_before. Z.div_mod_to_equations. lia. }
  assert (Hl0 : 0 <= leaps_before 1970) by (vm_compute; discriminate).
  destruct (days_in_month_range year) as (Hall & Hlen).
  rewrite month_loop_closed; auto; try (unfold INT_MAX; lia).
  cbn [bind skipn].
  rewrite days_before_month_sum by lia.
  pose proof (days_before_month_range year month Hm).
  rewrite in_int_ok by (unfold INT_MIN, INT_MAX; lia). cbn [bind].
  rewrite in_int_ok by (unfold INT_MIN, INT_MAX; lia).
  f_equal. lia.
Qed.

(** X12.  For the dates [parseDate] lets through, up to the year 5000000
    (far inside the range of [int]), [daysSinceEpoch] returns, without
    overflow and without reading outside its table, 365 days for every year
    since 1970, one more for every leap year among them, the days of the
    months before the given one (February counting 29 in a leap year), and
    the day of the month less one; the result is not negative. *)
Theorem daysSinceEpoch_day_number year month day :
  1970 <= year <= 5000000 -> 1 <= month <= 12 -> 1 <= day <= 31 ->
  daysSinceEpoch year month day = Ret (day_number year month day) /\
  0 <= day_number year month day <= INT_MAX.
Proof.
  intros Hy Hm Hd. split; [apply daysSinceEpoch_closed; lia|].
  unfold day_number.
  pose proof (leaps_before_mono 1970 year ltac:(lia)).
  assert (leaps_before year <= year)
    by (unfold leaps_before; Z.div_mod_to_equations; lia).
  assert (0 <= leaps_before 1970) by (vm_compute; discriminate).
  pose proof (days_before_month_range year month Hm).
  unfold INT_MAX. lia.
Qed.

Lemma daysSinceEpoch_day_number_witness :
  1970 <= 2024 <= 5000000 /\ 1 <= 3 <= 12 /\ 1 <= 15 <= 31 /\
  daysSinceEpoch 2024 3 15 = Ret (day_number 2024 3 15) /\
  day_number 2024 3 15 = 19797.
Proof.
  split; [lia|]. split; [lia|]. split; [lia|]. split.
  - apply (daysSinceEpoch_day_number 2024 3 15); lia.
  - reflexivity.
Defined.

Lemma month_length_range year month :
  1 <= month <= 12 -> 28 <= month_length year month <= 31.
Proof.
  intros Hm. unfold month_length, days_in_month.
  destruct (month_cases month Hm) as
    [-> | [-> | [-> | [-> | [-> | [-> | [-> | [-> | [-> | [-> | [-> | ->]]]]]]]]]]];
    destruct (is_leap year); simpl; lia.
Qed.

Lemma days_before_next_month year month :
  1 <= month <= 11 ->
  days_before_month year (month + 1)
  = days_before_month year month + month_length year month.
Proof.
  intros Hm. unfold days_before_month, month_length, days_in_month.
  assert (Hc : 1 <= month <= 12) by lia.
  destruct (month_cases month Hc) as
    [-> | [-> | [-> | [-> | [-> | [-> | [-> | [-> | [-> | [-> | [-> | ->]]]]]]]]]]];
    try lia; destruct (is_leap year); reflexivity.
Qed.

(** X13.  [parseDate] lets every day up to 31 through, whatever the month.
    A day past the end of its month is not refused by [daysSinceEpoch]
    either: it counts as the corresponding day of the following month. *)
Theorem daysSinceEpoch_rolls_over year month day :
  1970 <= year <= 5000000 -> 1 <= month <= 12 ->
  month_length year month < day <= 31 ->
  month < 12 /\
  daysSinceEpoch year month day
  = daysSinceEpoch year (month + 1) (day - month_length year month).
Proof.
  intros Hy Hm Hd.
  pose proof (month_length_range year month Hm) as Hlen.
  assert (Hlt : month < 12).
  { destruct (Z.eq_dec month 12) as [-> | Hne]; [|lia].
    exfalso. revert Hd. unfold month_length, days_in_month.
    destruct (is_leap year); simpl; lia. }
  split; [exact Hlt|].
  rewrite !daysSinceEpoch_closed by lia.
  f_equal. unfold day_number.
  rewrite days_before_next_month by lia. lia.
Qed.

Lemma daysSinceEpoch_rolls_over_witness :
  1970 <= 2023 <= 5000000 /\ 1 <= 2 <= 12 /\
  month_length 2023 2 < 30 <= 31 /\
  daysSinceEpoch 2023 2 30 = daysSinceEpoch 2023 3 2.
Proof.
  assert (H : month_length 2023 2 < 30 <= 31) by (vm_compute; split; congruence).
  split; [lia|]. split; [lia|]. split; [exact H|].
  exact (proj2 (daysSinceEpoch_rolls_over 2023 2 30 ltac:(lia) ltac:(lia) H)).
Defined.

Lemma days_before_month_mono year m1 m2 :
  1 <= m1 -> m1 < m2 -> m2 <= 12 ->
  days_before_month year m1 + month_length year m1
  <= days_before_month year m2.
Proof.
  intros H1 H12 H2.
  assert (Hc1 : 1 <= m1 <= 12) by lia. assert (Hc2 : 1 <= m2 <= 12) by lia.
  unfold days_before_month, month_length, days_in_month.
  destruct (month_cases m1 Hc1) as
    [-> | [-> | [-> | [-> | [-> | [-> | [-> | [-> | [-> | [-> | [-> | ->]]]]]]]]]]];
  destruct (month_cases m2 Hc2) as
    [-> | [-> | [-> | [-> | [-> | [-> | [-> | [-> | [-> | [-> | [-> | ->]]]]]]]]]]];
    try lia; destruct (is_leap year); simpl; lia.
Qed.

Lemma year_length year month :
  1 <= month <= 12 ->
  days_before_month year month + month_length year month
  <= 365 + (if is_leap year then 1 else 0).
Proof.
  intros Hm. unfold days_before_month, month_length, days_in_month.
  destruct (month_cases month Hm) as
    [-> | [-> | [-> | [-> | [-> | [-> | [-> | [-> | [-> | [-> | [-> | ->]]]]]]]]]]];
    destruct (is_leap year); simpl; lia.
Qed.

(** X14.  Along the calendar [daysSinceEpoch] strictly increases: of two
    dates whose days exist in their months, the earlier one gets the smaller
    number. *)
Theorem daysSinceEpoch_increases y1 m1 d1 y2 m2 d2 :
  proper_date y1 m1 d1 -> proper_date y2 m2 d2 ->
  date_lt y1 m1 d1 y2 m2 d2 ->
  exists n1 n2,
    daysSinceEpoch y1 m1 d1 = Ret n1 /\
    daysSinceEpoch y2 m2 d2 = Ret n2 /\ n1 < n2.
Proof.
  intros (Hy1 & Hm1 & Hd1) (Hy2 & Hm2 & Hd2) Hlt.
  pose proof (month_length_range y1 m1 Hm1).
  pose proof (month_length_range y2 m2 Hm2).
  exists (day_number y1 m1 d1), (day_number y2 m2 d2).
  split; [apply daysSinceEpoch_closed; lia|].
  split; [apply daysSinceEpoch_closed; lia|].
  unfold day_number.
  destruct Hlt as [Hy | (-> & [Hm | (-> & Hd)])].
  - pose proof (year_length y1 m1 Hm1).
    pose proof (leaps_before_succ y1 ltac:(lia)).
    pose proof (leaps_before_mono (y1 + 1) y2 ltac:(lia)).
    pose proof (days_before_month_range y2 m2 Hm2).
    destruct (is_leap y1); lia.
  - pose proof (days_before_month_mono y2 m1 m2 ltac:(lia) Hm ltac:(lia)). lia.
  - lia.
Qed.

Lemma daysSinceEpoch_increases_witness :
  proper_date 2023 12 31 /\ proper_date 2024 1 1 /\
  date_lt 2023 12 31 2024 1 1 /\
  exists n1 n2,
    daysSinceEpoch 2023 12 31 = Ret n1 /\
    daysSinceEpoch 2024 1 1 = Ret n2 /\ n1 < n2.
Proof.
  assert (H1 : proper_date 2023 12 31)
    by (unfold proper_date; vm_compute; intuition congruence).
  assert (H2 : proper_date 2024 1 1)
    by (unfold proper_date; vm_compute; intuition congruence).
  assert (Hlt : date_lt 2023 12 31 2024 1 1) by (left; lia).
  split; [exact H1|]. split; [exact H2|]. split; [exact Hlt|].
  exact (daysSinceEpoch_increases 2023 12 31 2024 1 1 H1 H2 Hlt).
Defined.

(** ** [localToUTC] *)

Lemma in_int_no_throw v : in_int v <> Throw.
Proof. unfold in_int. destruct (_ && _); discriminate. Qed.

Lemma year_loop_no_throw n : forall y d, year_loop n y d <> Throw.
Proof.
  induction n as [|n IH]; intros y d; cbn [year_loop]; [discriminate|].
  pose proof (in_int_no_throw (d + 365)).
  destruct (in_int (d + 365)) as [d1| |]; cbn [bind]; try congruence.
  destruct (is_leap y); cbn [bind]; [|try apply IH].
  pose proof (in_int_no_throw (d1 + 1)).
  destruct (in_int (d1 + 1)) as [d2| |]; cbn [bind]; try congruence;
    try apply IH.
Qed.

Lemma month_loop_no_throw n : forall m table d, month_loop n m table d <> Throw.
Proof.
  induction n as [|n IH]; intros m table d; cbn [month_loop]; [discriminate|].
  destruct (nth_error table m) as [dm|]; [|discriminate].
  pose proof (in_int_no_throw (d + dm)).
  destruct (in_int (d + dm)) as [d1| |]; cbn [bind]; try congruence;
    try apply IH.
Qed.

Lemma daysSinceEpoch_no_throw year month day :
  daysSinceEpoch year month day <> Throw.
Proof.
  unfold daysSinceEpoch.
  pose proof (year_loop_no_throw (Z.to_nat (year - 1970)) 1970 0).
  destruct (year_loop _ _ _) as [d1| |]; cbn [bind]; try congruence.
  pose proof (in_int_no_throw (month - 1)).
  destruct (in_int (month - 1)) as [last| |]; cbn [bind]; try congruence.
  pose proof (month_loop_no_throw (Z.to_nat last) O (days_in_month year) d1).
  destruct (month_loop _ _ _ _) as [d2| |]; cbn [bind]; try congruence.
  pose proof (in_int_no_throw (day - 1)).
  destruct (in_int (day - 1)) as [dd| |]; cbn [bind]; try congruence.
  apply in_int_no_throw.
Qed.

Lemma in_int_ret v r : in_int v = Ret r -> r = v.
Proof. unfold in_int. destruct (_ && _); congruence. Qed.

(** What an accepted date and an accepted time leave in the [tm]. *)
Lemma parseDate_accepts io date_str tm0 tm1 :
  parseDate io date_str tm0 = (true, tm1) ->
  exists year month day,
    String.length date_str = 10%nat /\
    extract_date io date_str = Some (year, "-"%char, month, "-"%char, day) /\
    1970 <= year /\ 1 <= month <= 12 /\ 1 <= day <= 31 /\
    tm_year tm1 = year - 1900 /\ tm_mon tm1 = month - 1 /\ tm_mday tm1 = day.
Proof.
  unfold parseDate.
  destruct (Nat.eqb_spec (String.length date_str) 10) as [Hlen | ?];
    simpl; [|discriminate].
  destruct (extract_date io date_str) as [[[[[year dash1] month] dash2] day]|];
    [|discriminate].
  destruct (Ascii.eqb_spec dash1 "-"%char) as [-> | ?]; simpl; [|discriminate].
  destruct (Ascii.eqb_spec dash2 "-"%char) as [-> | ?]; simpl; [|discriminate].
  destruct (Z.ltb_spec year 1970); simpl; [discriminate|].
  destruct (Z.ltb_spec month 1); simpl; [discriminate|].
  rewrite !Z.gtb_ltb.
  destruct (Z.ltb_spec 12 month); simpl; [discriminate|].
  destruct (Z.ltb_spec day 1); simpl; [discriminate|].
  destruct (Z.ltb_spec 31 day); simpl; [discriminate|].
  intros [= <-]. simpl. exists year, month, day. repeat split; auto; lia.
Qed.

Lemma parseTime_accepts io time_str tm0 tm1 :
  parseTime io time_str tm0 = (true, tm1) ->
  exists hour minute,
    String.length time_str = 5%nat /\
    extract_time io time_str = Some (hour, ":"%char, minute) /\
    0 <= hour <= 23 /\ 0 <= minute <= 59 /\
    tm_hour tm1 = hour /\ tm_min tm1 = minute /\
    tm_year tm1 = tm_year tm0 /\ tm_mon tm1 = tm_mon tm0 /\
    tm_mday tm1 = tm_mday tm0.
Proof.
  unfold parseTime.
  destruct (Nat.eqb_spec (String.length time_str) 5) as [Hlen | ?];
    simpl; [|discriminate].
  destruct (extract_time io time_str) as [[[hour colon] minute]|];
    [|discriminate].
  destruct (Ascii.eqb_spec colon ":"%char) as [-> | ?]; simpl; [|discriminate].
  rewrite !Z.gtb_ltb.
  destruct (Z.ltb_spec hour 0); simpl; [discriminate|].
  destruct (Z.ltb_spec 23 hour); simpl; [discriminate|].
  destruct (Z.ltb_spec minute 0); simpl; [discriminate|].
  destruct (Z.ltb_spec 59 minute); simpl; [discriminate|].
  intros [= <-]. simpl. exists hour, minute. repeat split; auto; lia.
Qed.

(** The shape of every defined result of [localToUTC]. *)
Lemma localToUTC_cases io date_str time_str tz_str :
  localToUTC io date_str time_str tz_str <> Throw /\
  forall r, localToUTC io date_str time_str tz_str = Ret r ->
    (r = -1 /\
     (isValidTimezone tz_str = false \/
      fst (parseDate io date_str tm_zero) = false \/
      fst (parseTime io time_str (snd (parseDate io date_str tm_zero))) = false))
    \/
    (isValidTimezone tz_str = true /\
     fst (parseDate io date_str tm_zero) = true /\
     fst (parseTime io time_str (snd (parseDate io date_str tm_zero))) = true /\
     exists year month day hour minute days off,
       extract_date io date_str = Some (year, "-"%char, month, "-"%char, day) /\
       extract_time io time_str = Some (hour, ":"%char, minute) /\
       1970 <= year /\ 1 <= month <= 12 /\ 1 <= day <= 31 /\
       0 <= hour <= 23 /\ 0 <= minute <= 59 /\
       daysSinceEpoch year month day = Ret days /\
       getOffsetSeconds tz_str = Ret off /\
       r = days * 86400 + hour * 3600 + minute * 60 - off).
Proof.
  unfold localToUTC.
  destruct (isValidTimezone tz_str) eqn:Htz; simpl;
    [|split; [discriminate | intros r [= <-]; left; auto]].
  destruct (parseDate io date_str tm_zero) as [[|] tm1] eqn:Hpd; simpl;
    [|split; [discriminate | intros r [= <-]; left; auto]].
  destruct (parseTime io time_str tm1) as [[|] tm2] eqn:Hpt; simpl;
    [|split; [discriminate | intros r [= <-]; left; auto]].
  destruct (parseDate_accepts _ _ _ _ Hpd)
    as (year & month & day & _ & Hed & Hyr & Hmo & Hda & Hty & Htm & Htd).
  destruct (parseTime_accepts _ _ _ _ Hpt)
    as (hour & minute & _ & Het & Hho & Hmi & Hth & Htmi & Hty' & Htm' & Htd').
  rewrite Hty', Htm', Htd', Hty, Htm, Htd, Hth, Htmi.
  replace (year - 1900 + 1900) with year by lia.
  replace (month - 1 + 1) with month by lia.
  destruct (proj1 (proj1 (timezone_table_sound tz_str)) Htz) as (off & Hoff).
  rewrite Hoff.
  pose proof (in_int_no_throw year) as Hny.
  destruct (in_int year) as [y'| |] eqn:Hiy; cbn [bind];
    try (split; [congruence | discriminate]).
  apply in_int_ret in Hiy. subst y'.
  rewrite in_int_ok by (unfold INT_MIN, INT_MAX; lia). cbn [bind].
  pose proof (daysSinceEpoch_no_throw year month day) as Hnd.
  destruct (daysSinceEpoch year month day) as [days| |] eqn:Hds; cbn [bind];
    try (split; [congruence | discriminate]).
  split; [discriminate|].
  intros r [= <-]. right. repeat split; auto.
  exists year, month, day, hour, minute, days, off.
  repeat split; auto; lia.
Qed.

(** X15.  [localToUTC] never lets the exception of [getOffsetSeconds]
    escape.  Whenever it returns, the value is -1 exactly when the time zone
    is unknown or the date or the time was not accepted by [parseDate] or
    [parseTime]; every other result is a whole number of minutes, so the
    error value cannot be mistaken for an instant. *)
Theorem localToUTC_error_value io date_str time_str tz_str :
  localToUTC io date_str time_str tz_str <> Throw /\
  forall r, localToUTC io date_str time_str tz_str = Ret r ->
    (r = -1 <->
       (isValidTimezone tz_str = false \/
        fst (parseDate io date_str tm_zero) = false \/
        fst (parseTime io time_str (snd (parseDate io date_str tm_zero)))
          = false)) /\
    (r <> -1 -> r mod 60 = 0).
Proof.
  destruct (localToUTC_cases io date_str time_str tz_str) as (Hthrow & Hret).
  split; [exact Hthrow|]. intros r Hr.
  destruct (Hret r Hr) as [(-> & Hrej) | (Htz & Hpd & Hpt & Hacc)].
  - split; [tauto | congruence].
  - destruct Hacc as
      (year & month & day & hour & minute & days & off & _ & _ & _ & _ & _ &
       _ & _ & _ & Hoff & ->).
    assert (Hmod : (days * 86400 + hour * 3600 + minute * 60 - off) mod 60 = 0).
    { destruct (proj2 (timezone_table_sound tz_str) off Hoff) as [-> | [-> | ->]];
        Z.div_mod_to_equations; lia. }
    split; [|auto].
    split.
    + intros Heq. rewrite Heq in Hmod. vm_compute in Hmod. discriminate.
    + rewrite Htz, Hpd, Hpt. intros [H | [H | H]]; discriminate.
Qed.

Lemma localToUTC_error_value_witness :
  localToUTC digit_stream "2024-03-15" "09:30" "IST" = Ret 1710475200 /\
  (1710475200 <> -1 -> 1710475200 mod 60 = 0) /\
  localToUTC digit_stream "2024-03-15" "09:30" "CET" = Ret (-1) /\
  localToUTC digit_stream "15/03/2024" "09:30" "IST" = Ret (-1) /\
  localToUTC digit_stream "2024-03-15" "24:00" "IST" = Ret (-1).
Proof.
  assert (H : localToUTC digit_stream "2024-03-15" "09:30" "IST"
              = Ret 1710475200) by (vm_compute; reflexivity).
  split; [exact H|]. split.
  - exact (proj2 (proj2 (localToUTC_error_value digit_stream
                          "2024-03-15" "09:30" "IST") _ H)).
  - repeat split; vm_compute; reflexivity.
Defined.

Lemma parseDate_ok io date_str tm0 year month day :
  String.length date_str = 10%nat ->
  extract_date io date_str = Some (year, "-"%char, month, "-"%char, day) ->
  1970 <= year -> 1 <= month <= 12 -> 1 <= day <= 31 ->
  exists tm1,
    parseDate io date_str tm0 = (true, tm1) /\
    tm_year tm1 = year - 1900 /\ tm_mon tm1 = month - 1 /\ tm_mday tm1 = day.
Proof.
  intros Hlen Hed Hy Hm Hd. unfold parseDate. rewrite Hlen, Hed. simpl.
  rewrite !Z.gtb_ltb.
  destruct (Z.ltb_spec year 1970); [lia|].
  destruct (Z.ltb_spec month 1); [lia|].
  destruct (Z.ltb_spec 12 month); [lia|].
  destruct (Z.ltb_spec day 1); [lia|].
  destruct (Z.ltb_spec 31 day); [lia|].
  simpl. eexists. split; [reflexivity|]. simpl. auto.
Qed.

Lemma parseTime_ok io time_str tm0 hour minute :
  String.length time_str = 5%nat ->
  extract_time io time_str = Some (hour, ":"%char, minute) ->
  0 <= hour <= 23 -> 0 <= minute <= 59 ->
  exists tm1,
    parseTime io time_str tm0 = (true, tm1) /\
    tm_hour tm1 = hour /\ tm_min tm1 = minute /\
    tm_year tm1 = tm_year tm0 /\ tm_mon tm1 = tm_mon tm0 /\
    tm_mday tm1 = tm_mday tm0.
Proof.
  intros Hlen Het Hh Hm. unfold parseTime. rewrite Hlen, Het. simpl.
  rewrite !Z.gtb_ltb.
  destruct (Z.ltb_spec hour 0); [lia|].
  destruct (Z.ltb_spec 23 hour); [lia|].
  destruct (Z.ltb_spec minute 0); [lia|].
  destruct (Z.ltb_spec 59 minute); [lia|].
  simpl. eexists. split; [reflexivity|]. simpl. auto.
Qed.

(** X16.  When the date string has ten characters and yields year, dash,
    month, dash, day with 1970 <= year <= 5000000, 1 <= month <= 12,
    1 <= day <= 31, the time string has five characters and yields hour,
    colon, minute with 0 <= hour <= 23 and 0 <= minute <= 59, and the time
    zone has the offset [off], [localToUTC] returns the number of seconds
    from the epoch to that local date and time, less the offset; no result
    lies before -19800. *)
Theorem localToUTC_instant io date_str time_str tz_str
    year month day hour minute off :
  String.length date_str = 10%nat ->
  extract_date io date_str = Some (year, "-"%char, month, "-"%char, day) ->
  1970 <= year <= 5000000 -> 1 <= month <= 12 -> 1 <= day <= 31 ->
  String.length time_str = 5%nat ->
  extract_time io time_str = Some (hour, ":"%char, minute) ->
  0 <= hour <= 23 -> 0 <= minute <= 59 ->
  getOffsetSeconds tz_str = Ret off ->
  localToUTC io date_str time_str tz_str
  = Ret (86400 * day_number year month day + 3600 * hour + 60 * minute - off)
  /\
  -19800 <= 86400 * day_number year month day + 3600 * hour + 60 * minute - off.
Proof.
  intros Hdl Hed Hy Hm Hd Htl Het Hh Hmi Hoff.
  destruct (daysSinceEpoch_day_number year month day Hy Hm Hd) as (Hds & Hrange).
  split.
  - unfold localToUTC.
    rewrite (proj2 (proj1 (timezone_table_sound tz_str)) (ex_intro _ off Hoff)).
    cbn [negb].
    destruct (parseDate_ok io date_str tm_zero year month day Hdl Hed)
      as (tm1 & -> & Hty & Htm & Htd); try lia.
    cbn [negb].
    destruct (parseTime_ok io time_str tm1 hour minute Htl Het Hh Hmi)
      as (tm2 & -> & Hth & Htmi & Hty' & Htm' & Htd').
    cbn [negb]. rewrite Hty', Htm', Htd', Hty, Htm, Htd, Hth, Htmi.
    replace (year - 1900 + 1900) with year by lia.
    replace (month - 1 + 1) with month by lia.
    rewrite (in_int_ok year) by (unfold INT_MIN, INT_MAX; lia). cbn [bind].
    rewrite (in_int_ok month) by (unfold INT_MIN, INT_MAX; lia). cbn [bind].
    rewrite Hds. cbn [bind]. rewrite Hoff. cbn [bind].
    f_equal. lia.
  - destruct (proj2 (timezone_table_sound tz_str) off Hoff) as [-> | [-> | ->]];
      lia.
Qed.

Lemma localToUTC_instant_witness :
  String.length "2024-03-15" = 10%nat /\
  extract_date digit_stream "2024-03-15"
    = Some (2024, "-"%char, 3, "-"%char, 15) /\
  String.length "09:30" = 5%nat /\
  extract_time digit_stream "09:30" = Some (9, ":"%char, 30) /\
  getOffsetSeconds "IST" = Ret 19800 /\
  localToUTC digit_stream "2024-03-15" "09:30" "IST"
  = Ret (86400 * day_number 2024 3 15 + 3600 * 9 + 60 * 30 - 19800).
Proof.
  repeat (split; [reflexivity|]).
  apply (localToUTC_instant digit_stream "2024-03-15" "09:30" "IST"
           2024 3 15 9 30 19800); try reflexivity; lia.
Defined.

(** ** The bounds of a week *)

Lemma localToUTC_minutes io date_str time_str tz_str r :
  localToUTC io date_str time_str tz_str = Ret r -> r = -1 \/ r mod 60 = 0.
Proof.
  intros Hr.
  destruct (proj2 (localToUTC_cases io date_str time_str tz_str) r Hr)
    as [(-> & _) | (_ & _ & _ & Hacc)]; [auto|].
  destruct Hacc as
    (year & month & day & hour & minute & days & off & _ & _ & _ & _ & _ &
     _ & _ & _ & Hoff & ->).
  right.
  destruct (proj2 (timezone_table_sound tz_str) off Hoff) as [-> | [-> | ->]];
    Z.div_mod_to_equations; lia.
Qed.

Lemma weekday_of_range t w : weekday_of t = Some w -> 0 <= w <= 6.
Proof.
  unfold weekday_of. destruct (t <? 0); [discriminate|].
  intros H. assert (Hw : w = (4 + t / 86400) mod 7) by congruence.
  pose proof (Z.mod_pos_bound (4 + t / 86400) 7 ltac:(lia)). lia.
Qed.

Lemma calculateWeekBounds_cases io gm date_str tz_str :
  (forall t w, gm t = Some w -> 0 <= w <= 6) ->
  calculateWeekBounds io gm date_str tz_str <> Throw /\
  forall ws we, calculateWeekBounds io gm date_str tz_str = Ret (ws, we) ->
    (ws = -1 /\ we = -1 /\
     (localToUTC io date_str "00:00" tz_str = Ret (-1) \/
      exists t, localToUTC io date_str "00:00" tz_str = Ret t /\ gm t = None))
    \/
    (exists date_utc w,
       localToUTC io date_str "00:00" tz_str = Ret date_utc /\
       gm date_utc = Some w /\
       ws = date_utc - 86400 * ((w + 6) mod 7) /\
       we = ws + 604800 /\
       ws <= date_utc < we /\ ws <> -1).
Proof.
  intros Hgm. unfold calculateWeekBounds.
  pose proof (proj1 (localToUTC_cases io date_str "00:00" tz_str)) as Hthrow.
  destruct (localToUTC io date_str "00:00" tz_str) as [date_utc| |] eqn:Hloc;
    cbn [bind]; try (split; [congruence | discriminate]).
  destruct (Z.eqb_spec date_utc (-1)) as [-> | Hne].
  { split; [discriminate|]. intros ws we [= <- <-]. left. auto. }
  destruct (gm date_utc) as [w|] eqn:Hw.
  2:{ split; [discriminate|]. intros ws we [= <- <-]. left.
      repeat split; auto. right. eauto. }
  pose proof (Hgm _ _ Hw) as Hrange.
  assert (Hdays : (if w =? 0 then Ret 6 else in_int (w - 1))
                  = Ret ((w + 6) mod 7)).
  { destruct (Z.eqb_spec w 0) as [-> | Hw0]; [reflexivity|].
    rewrite in_int_ok by (unfold INT_MIN, INT_MAX; lia). f_equal.
    assert (Hc : w = 1 \/ w = 2 \/ w = 3 \/ w = 4 \/ w = 5 \/ w = 6) by lia.
    destruct Hc as [-> | [-> | [-> | [-> | [-> | ->]]]]]; reflexivity. }
  rewrite Hdays. cbn [bind].
  split; [discriminate|]. intros ws we [= <- <-]. right.
  exists date_utc, w.
  pose proof (Z.mod_pos_bound (w + 6) 7 ltac:(lia)) as Hk.
  destruct (localToUTC_minutes _ _ _ _ _ Hloc) as [? | Hmod]; [contradiction|].
  repeat split; auto; try lia.
  intros Heq.
  assert ((date_utc - (w + 6) mod 7 * 24 * 3600) mod 60 = 0)
    by (Z.div_mod_to_equations; lia).
  rewrite Heq in H. vm_compute in H. discriminate.
Qed.

(** X17.  With a [gmtime] whose day of the week lies between 0 and 6,
    [calculateWeekBounds] never throws, and whenever it returns its two
    bounds, either both are -1 (the date was not accepted, or [gmtime] gave
    a null pointer), or the first one is the instant of the date at
    midnight moved back by its number of days since Monday, the second one
    lies exactly seven days later, the date lies between them, and the first
    one is not the error value -1. *)
Theorem calculateWeekBounds_week io gm date_str tz_str :
  (forall t w, gm t = Some w -> 0 <= w <= 6) ->
  calculateWeekBounds io gm date_str tz_str <> Throw /\
  forall ws we, calculateWeekBounds io gm date_str tz_str = Ret (ws, we) ->
    (ws = -1 /\ we = -1 /\
     (localToUTC io date_str "00:00" tz_str = Ret (-1) \/
      exists t, localToUTC io date_str "00:00" tz_str = Ret t /\ gm t = None))
    \/
    (exists date_utc w,
       localToUTC io date_str "00:00" tz_str = Ret date_utc /\
       gm date_utc = Some w /\
       ws = date_utc - 86400 * ((w + 6) mod 7) /\
       we = ws + 604800 /\
       ws <= date_utc < we /\ ws <> -1).
Proof. apply calculateWeekBounds_cases. Qed.

Lemma calculateWeekBounds_week_witness :
  (forall t w, weekday_of t = Some w -> 0 <= w <= 6) /\
  calculateWeekBounds digit_stream weekday_of "2024-03-15" "UTC"
    = Ret (1710115200, 1710720000) /\
  exists date_utc w,
    localToUTC digit_stream "2024-03-15" "00:00" "UTC" = Ret date_utc /\
    weekday_of date_utc = Some w /\
    1710115200 = date_utc - 86400 * ((w + 6) mod 7) /\
    1710720000 = 1710115200 + 604800 /\
    1710115200 <= date_utc < 1710720000 /\ 1710115200 <> -1.
Proof.
  assert (H : calculateWeekBounds digit_stream weekday_of "2024-03-15" "UTC"
              = Ret (1710115200, 1710720000)) by (vm_compute; reflexivity).
  split; [exact weekday_of_range|]. split; [exact H|].
  destruct (proj2 (calculateWeekBounds_week digit_stream weekday_of
                     "2024-03-15" "UTC" weekday_of_range) _ _ H)
    as [(Habs & _) | Hok].
  - discriminate Habs.
  - exact Hok.
Defined.

(** X18.  The listing of a week: on a state that satisfies the store
    invariants, with non-negative identifiers, the bounds that
    [calculateWeekBounds] returns, when they are not the error pair, make
    [getWeeklyEvents] return exactly the stored events that overlap the
    seven days from the first bound on, in ascending start order. *)
Theorem week_listing io gm date_str tz_str st ws we :
  (forall t w, gm t = Some w -> 0 <= w <= 6) ->
  calculateWeekBounds io gm date_str tz_str = Ret (ws, we) ->
  ws <> -1 ->
  store_inv (events_ st) ->
  Forall (fun E => 0 <= id E) (events_ st) ->
  we = ws + 604800 /\
  getWeeklyEvents ws we st
  = filter (fun E => (start_utc E <? ws + 604800) && (end_utc E >? ws))
      (events_ st) /\
  StronglySorted (fun a b => start_utc a < start_utc b)
    (getWeeklyEvents ws we st).
Proof.
  intros Hgm Hcal Hne Hinv Hid.
  destruct (proj2 (calculateWeekBounds_cases io gm date_str tz_str Hgm) _ _ Hcal)
    as [(Habs & _) | (date_utc & w & _ & _ & _ & Hwe & Hbetween & _)];
    [contradiction|].
  split; [exact Hwe|].
  assert (Heq : getWeeklyEvents ws we st
    = filter (fun E => (start_utc E <? we) && (end_utc E >? ws)) (events_ st))
    by (apply getWeeklyEvents_filter; auto; lia).
  split.
  - rewrite Heq, Hwe. reflexivity.
  - rewrite Heq. apply strict_filter, store_inv_start_sorted, Hinv.
Qed.

Lemma week_listing_witness :
  let st := {| events_ := [mkEvent 2 "sun" 1710113400 1710117000;
                           mkEvent 1 "mon" 1710147600 1710151200;
                           mkEvent 3 "next" 1710720000 1710723600];
               next_event_id_ := 4 |} in
  (forall t w, weekday_of t = Some w -> 0 <= w <= 6) /\
  calculateWeekBounds digit_stream weekday_of "2024-03-15" "UTC"
    = Ret (1710115200, 1710720000) /\
  store_inv (events_ st) /\
  Forall (fun E => 0 <= id E) (events_ st) /\
  getWeeklyEvents 1710115200 1710720000 st
  = filter (fun E => (start_utc E <? 1710115200 + 604800)
                     && (end_utc E >? 1710115200))
      (events_ st).
Proof.
  intros st.
  assert (H : calculateWeekBounds digit_stream weekday_of "2024-03-15" "UTC"
              = Ret (1710115200, 1710720000)) by (vm_compute; reflexivity).
  assert (Hinv : store_inv (events_ st)) by (subst st; simpl; concrete_store_inv).
  assert (Hid : Forall (fun E => 0 <= id E) (events_ st))
    by (repeat constructor; simpl; lia).
  split; [exact weekday_of_range|]. split; [exact H|].
  split; [exact Hinv|]. split; [exact Hid|].
  apply (week_listing digit_stream weekday_of "2024-03-15" "UTC" st
           1710115200 1710720000 weekday_of_range H); auto. lia.
Defined.

(** * The command line *)

Lemma append_assoc (a b c : string) :
  ((a ++ b) ++ c)%string = (a ++ (b ++ c))%string.
Proof. induction a as [|x a IH]; simpl; congruence. Qed.

Lemma drop_last_snoc (s : string) c :
  drop_last (s ++ String c EmptyString) = s.
Proof.
  induction s as [|x s IH]; simpl; auto.
  rewrite IH. destruct s; reflexivity.
Qed.

Lemma str_back_snoc (s : string) c :
  str_back (s ++ String c EmptyString) = Some c.
Proof.
  induction s as [|x s IH]; simpl; auto.
  rewrite IH. destruct s; reflexivity.
Qed.

Lemma ends_with_quote_snoc (s : string) :
  ends_with_quote (s ++ String dquote EmptyString) = true.
Proof. unfold ends_with_quote. rewrite str_back_snoc. apply Ascii.eqb_refl. Qed.

Lemma ends_with_quote_cons c (s : string) :
  s <> EmptyString -> ends_with_quote (String c s) = ends_with_quote s.
Proof. unfold ends_with_quote. destruct s; simpl; congruence. Qed.

Lemma parse_step_plain tokens q t :
  plain_token t -> parse_step (tokens, false, q) t = Ret (tokens ++ [t], false, q).
Proof. intros (c & r & -> & Hc). simpl. now rewrite Hc. Qed.

Lemma parse_loop_plain l : forall tokens q,
  Forall plain_token l ->
  parse_loop l (tokens, false, q) = Ret (tokens ++ l, false, q).
Proof.
  induction l as [|t l IH]; intros tokens q Hall; cbn [parse_loop].
  - now rewrite app_nil_r.
  - inversion Hall; subst. rewrite parse_step_plain by assumption.
    cbn [bind]. rewrite IH by assumption. now rewrite <- app_assoc.
Qed.

(** X19.  A command line none of whose tokens begins with a double quote
    comes back from [parseCommand] token by token, unchanged. *)
Theorem parseCommand_plain toks :
  Forall plain_token toks -> parseCommand toks = Ret toks.
Proof.
  intros Hall. unfold parseCommand.
  rewrite parse_loop_plain by assumption. reflexivity.
Qed.

Lemma parseCommand_plain_witness :
  Forall plain_token ["list"; "week"; "2024-03-15"; "IST"]%string /\
  parseCommand ["list"; "week"; "2024-03-15"; "IST"]%string
  = Ret ["list"; "week"; "2024-03-15"; "IST"]%string.
Proof.
  assert (H : Forall plain_token ["list"; "week"; "2024-03-15"; "IST"]%string).
  { repeat constructor; eexists; eexists; split; reflexivity. }
  split; [exact H|]. exact (parseCommand_plain _ H).
Defined.

Lemma append_empty (a : string) : (a ++ EmptyString)%string = a.
Proof. induction a; simpl; congruence. Qed.

Lemma spaced_snoc mids (wn : string) :
  spaced (mids ++ [wn]) = (spaced mids ++ " " ++ wn)%string.
Proof.
  induction mids as [|m mids IH]; simpl.
  - now rewrite append_empty.
  - rewrite IH, !append_assoc. reflexivity.
Qed.

(** Inside a quotation the words are appended, each after a space. *)
Lemma parse_loop_inner mids : forall l tokens q,
  Forall inner_token mids ->
  parse_loop (mids ++ l) (tokens, true, q)
  = parse_loop l (tokens, true, (q ++ spaced mids)%string).
Proof.
  induction mids as [|m mids IH]; intros l tokens q Hall; simpl.
  - f_equal. f_equal. clear. induction q; simpl; congruence.
  - inversion Hall as [|? ? ((c & r & -> & Hc) & Hend) Hrest]; subst.
    cbn [parse_step]. rewrite Hc, Hend. cbn [bind].
    rewrite IH by assumption. f_equal. f_equal.
    rewrite !append_assoc. reflexivity.
Qed.

Lemma parse_step_open tokens b q w1 :
  ends_with_quote w1 = false ->
  parse_step (tokens, b, q) (String dquote w1) = Ret (tokens, true, w1).
Proof.
  intros Hend. cbn [parse_step]. rewrite Ascii.eqb_refl.
  destruct w1 as [|c w1]; [reflexivity|].
  rewrite ends_with_quote_cons by discriminate. rewrite Hend. reflexivity.
Qed.

Lemma parse_step_close tokens q wn :
  plain_token wn ->
  parse_step (tokens, true, q) (wn ++ String dquote EmptyString)
  = Ret (tokens ++ [(q ++ " " ++ wn)%string], false, (q ++ " " ++ wn)%string).
Proof.
  intros (c & r & -> & Hc).
  change ((String c r ++ String dquote EmptyString)%string)
    with (String c (r ++ String dquote EmptyString)).
  cbn [parse_step]. rewrite Hc.
  change (String c (r ++ String dquote EmptyString))
    with ((String c r ++ String dquote EmptyString)%string).
  rewrite ends_with_quote_snoc.
  replace ((q ++ " " ++ String c r ++ String dquote EmptyString)%string)
    with (((q ++ " " ++ String c r) ++ String dquote EmptyString)%string)
    by (rewrite !append_assoc; reflexivity).
  rewrite drop_last_snoc. reflexivity.
Qed.

(** Outside a quotation the value left in [quoted_token] plays no role, and
    the tokens found so far stay in front. *)
Lemma parse_loop_tokens l : forall tokens q,
  parse_loop l (tokens, false, q) >>= (fun st => Ret (fst (fst st)))
  = parseCommand l >>= fun rest => Ret (tokens ++ rest).
Proof.
  unfold parseCommand.
  assert (Hgen : forall l tokens b q,
    parse_loop l (tokens, b, q) >>= (fun st => Ret (fst (fst st)))
    = parse_loop l ([], b, q) >>= (fun st => Ret (fst (fst st)))
      >>= fun rest => Ret (tokens ++ rest)).
  { clear. induction l as [|t l IH]; intros tokens b q.
    - simpl. now rewrite app_nil_r.
    - cbn [parse_loop].
      assert (Hstep : (parse_step (tokens, b, q) t = Undef /\
                       parse_step ([], b, q) t = Undef) \/
                exists add b' q',
                  parse_step (tokens, b, q) t = Ret (tokens ++ add, b', q') /\
                  parse_step ([], b, q) t = Ret (add, b', q')).
      { destruct t as [|c r]; [left; auto|]. right. cbn [parse_step].
        destruct (Ascii.eqb c dquote).
        - destruct (ends_with_quote (String c r) && _)%bool.
          + eexists _, _, _. split; reflexivity.
          + exists [], true, r. rewrite app_nil_r. split; reflexivity.
        - destruct b.
          + destruct (ends_with_quote (String c r)).
            * eexists _, _, _. split; reflexivity.
            * exists [], true, (q ++ " " ++ String c r)%string.
              rewrite app_nil_r. split; reflexivity.
          + eexists _, _, _. split; reflexivity. }
      destruct Hstep as [(-> & ->) | (add & b' & q' & -> & ->)]; [reflexivity|].
      cbn [bind]. rewrite (IH (tokens ++ add)), (IH add).
      destruct (parse_loop l ([], b', q')) as [[[t0 b0] q0]| |];
        cbn [bind fst]; try reflexivity.
      now rewrite app_assoc. }
  assert (Hq : forall l q q',
    parse_loop l ([], false, q) >>= (fun st => Ret (fst (fst st)))
    = parse_loop l ([], false, q') >>= (fun st => Ret (fst (fst st)))).
  { clear - Hgen. induction l as [|t l IH]; intros q q'; [reflexivity|].
    cbn [parse_loop]. destruct t as [|c r]; [reflexivity|].
    unfold parse_step. cbv beta iota.
    destruct (Ascii.eqb c dquote); [reflexivity|].
    cbn [bind app]. rewrite (Hgen l [String c r] false q),
      (Hgen l [String c r] false q'), (IH q q'). reflexivity. }
  intros tokens q. rewrite Hgen, (Hq l q EmptyString).
  destruct (parse_loop l ([], false, EmptyString)) as [[[t0 b0] q0]| |];
    reflexivity.
Qed.

(** X20.  A quotation of several words, opened by a token that begins with
    a double quote and closed by the first later token that ends with one,
    comes back as one token: its words joined by single spaces, without the
    two quotes.  The tokens before it, none of which begins with a quote,
    come back unchanged, and those after it are treated as a line of their
    own. *)
Theorem parseCommand_quotation pre w1 mids wn post :
  Forall plain_token pre ->
  ends_with_quote w1 = false ->
  Forall inner_token mids ->
  plain_token wn ->
  parseCommand
    (pre ++ String dquote w1 :: mids
         ++ (wn ++ String dquote EmptyString)%string :: post)
  = parseCommand post >>= fun rest =>
    Ret (pre ++ (w1 ++ spaced (mids ++ [wn]))%string :: rest).
Proof.
  intros Hpre Hw1 Hmids Hwn. unfold parseCommand at 1.
  assert (Hsplit : forall l1 l2 st,
    parse_loop (l1 ++ l2) st = parse_loop l1 st >>= parse_loop l2).
  { clear. induction l1 as [|t l1 IH]; intros l2 st; [reflexivity|].
    cbn [parse_loop app]. destruct (parse_step st t); cbn [bind]; auto. }
  rewrite Hsplit, parse_loop_plain by assumption. cbn [bind app].
  cbn [parse_loop]. rewrite parse_step_open by assumption. cbn [bind].
  rewrite parse_loop_inner by assumption.
  cbn [parse_loop]. rewrite parse_step_close by assumption. cbn [bind].
  rewrite parse_loop_tokens.
  destruct (parseCommand post) as [rest| |]; cbn [bind]; try reflexivity.
  f_equal. rewrite <- app_assoc. cbn [app].
  rewrite spaced_snoc, append_assoc. reflexivity.
Qed.

Lemma parseCommand_quotation_witness :
  let pre := ["create"%string] in
  let post := ["2024-03-15"; "09:00"; "10:00"; "IST"]%string in
  Forall plain_token pre /\ ends_with_quote "Team" = false /\
  Forall inner_token ["status"%string] /\ plain_token "meeting" /\
  parseCommand (pre ++ String dquote "Team" :: ["status"%string]
                    ++ ("meeting" ++ String dquote EmptyString)%string :: post)
  = Ret ["create"; "Team status meeting"; "2024-03-15"; "09:00"; "10:00";
         "IST"]%string.
Proof.
  intros pre post.
  assert (Hpre : Forall plain_token pre)
    by (repeat constructor; eexists; eexists; split; reflexivity).
  assert (Hw1 : ends_with_quote "Team" = false) by reflexivity.
  assert (Hmids : Forall inner_token ["status"%string]).
  { repeat constructor. eexists; eexists; split; reflexivity. }
  assert (Hwn : plain_token "meeting")
    by (eexists; eexists; split; reflexivity).
  split; [exact Hpre|]. split; [exact Hw1|]. split; [exact Hmids|].
  split; [exact Hwn|].
  rewrite (parseCommand_quotation pre "Team" ["status"%string] "meeting" post
             Hpre Hw1 Hmids Hwn).
  reflexivity.
Defined.

(** X21.  A quotation that is never closed is lost together with
    everything after it: when a token begins with a double quote and neither
    it nor any later token ends with one, [parseCommand] returns the tokens
    before it only. *)
Theorem parseCommand_unclosed pre w1 rest :
  Forall plain_token pre ->
  ends_with_quote w1 = false ->
  Forall inner_token rest ->
  parseCommand (pre ++ String dquote w1 :: rest) = Ret pre.
Proof.
  intros Hpre Hw1 Hrest. unfold parseCommand.
  assert (Hsplit : forall l1 l2 st,
    parse_loop (l1 ++ l2) st = parse_loop l1 st >>= parse_loop l2).
  { clear. induction l1 as [|t l1 IH]; intros l2 st; [reflexivity|].
    cbn [parse_loop app]. destruct (parse_step st t); cbn [bind]; auto. }
  rewrite Hsplit, parse_loop_plain by assumption. cbn [bind app].
  cbn [parse_loop]. rewrite parse_step_open by assumption. cbn [bind].
  rewrite <- (app_nil_r rest), parse_loop_inner by assumption.
  reflexivity.
Qed.

Lemma parseCommand_unclosed_witness :
  Forall plain_token ["create"%string] /\ ends_with_quote "Team" = false /\
  Forall inner_token ["meeting"; "2024-03-15"]%string /\
  parseCommand ("create"%string :: String dquote "Team"
                  :: ["meeting"; "2024-03-15"]%string)
  = Ret ["create"%string].
Proof.
  assert (Hpre : Forall plain_token ["create"%string])
    by (repeat constructor; eexists; eexists; split; reflexivity).
  assert (Hw1 : ends_with_quote "Team" = false) by reflexivity.
  assert (Hrest : Forall inner_token ["meeting"; "2024-03-15"]%string).
  { repeat constructor; eexists; eexists; split; reflexivity. }
  split; [exact Hpre|]. split; [exact Hw1|]. split; [exact Hrest|].
  exact (parseCommand_unclosed ["create"%string] "Team"
           ["meeting"; "2024-03-15"]%string Hpre Hw1 Hrest).
Defined.

(** X22.  A single token between double quotes, whatever is written
    between them, comes back without the two quotes; the tokens before it,
    none of which begins with a quote, come back unchanged, and those after
    it are treated as a line of their own. *)
Theorem parseCommand_quoted_word pre w post :
  Forall plain_token pre ->
  parseCommand
    (pre ++ String dquote (w ++ String dquote EmptyString) :: post)
  = parseCommand post >>= fun rest => Ret (pre ++ w :: rest).
Proof.
  intros Hpre. unfold parseCommand at 1.
  assert (Hsplit : forall l1 l2 st,
    parse_loop (l1 ++ l2) st = parse_loop l1 st >>= parse_loop l2).
  { clear. induction l1 as [|t l1 IH]; intros l2 st; [reflexivity|].
    cbn [parse_loop app]. destruct (parse_step st t); cbn [bind]; auto. }
  rewrite Hsplit, parse_loop_plain by assumption. cbn [bind app parse_loop].
  assert (Hstep : parse_step (pre, false, EmptyString)
                    (String dquote (w ++ String dquote EmptyString))
                  = Ret (pre ++ [w], false, w)).
  { unfold parse_step. cbv beta iota. rewrite Ascii.eqb_refl.
    rewrite ends_with_quote_cons by (destruct w; discriminate).
    rewrite ends_with_quote_snoc.
    replace (1 <? String.length (String dquote (w ++ String dquote EmptyString)))%nat
      with true by (destruct w; reflexivity).
    cbn [andb]. rewrite drop_last_snoc. reflexivity. }
  rewrite Hstep. cbn [bind]. rewrite parse_loop_tokens.
  destruct (parseCommand post) as [rest| |]; cbn [bind]; try reflexivity.
  f_equal. rewrite <- app_assoc. reflexivity.
Qed.

Lemma parseCommand_quoted_word_witness :
  Forall plain_token ["create"%string] /\
  parseCommand ("create"%string
                  :: String dquote ("Lunch" ++ String dquote EmptyString)
                  :: ["2024-03-15"; "12:00"; "13:00"; "UTC"]%string)
  = Ret ["create"; "Lunch"; "2024-03-15"; "12:00"; "13:00"; "UTC"]%string.
Proof.
  assert (Hpre : Forall plain_token ["create"%string])
    by (repeat constructor; eexists; eexists; split; reflexivity).
  split; [exact Hpre|].
  exact (parseCommand_quoted_word ["create"%string] "Lunch"
           ["2024-03-15"; "12:00"; "13:00"; "UTC"]%string Hpre).
Defined.
